(** * xflag: positional arguments, list values and file handles on top of
      Go's [flag] package.

    A shallow embedding of [xflag.go] (package [xflag], Steve Donovan, 2011)
    together with the small part of the Go runtime it calls: the [strings]
    functions it uses, [strconv.Atoi], the [os] file calls, [filepath.Glob],
    [ioutil.ReadFile] and the base registry [flag.FlagSet].

    Go strings are byte sequences: they are modelled as [string] (a list of
    [ascii] bytes).  Go's [int] is a machine integer: it is modelled as [Z]
    with the wrap-around written out ([wrap]).  The code is written against
    the Go library of 2011, where [flag.Value.Set] returns a [bool] and [int]
    is 32 bits wide. *)

From stdpp Require Import prelude.
From Stdlib Require Import ZArith Lia Ascii String List DecimalString.
Import ListNotations.
Local Open Scope string_scope.
Local Open Scope list_scope.
Local Open Scope Z_scope.

(* ===================================================================== *)
(** ** Package [strings] *)
(* ===================================================================== *)

Module strings.

(** [strings.HasPrefix(s, prefix)]. *)
Fixpoint HasPrefix (s prefix : string) : bool :=
  match prefix, s with
  | EmptyString, _ => true
  | String _ _, EmptyString => false
  | String p prefix', String c s' => Ascii.eqb c p && HasPrefix s' prefix'
  end.

Fixpoint index_from (s sep : string) : option nat :=
  if HasPrefix s sep then Some 0%nat
  else match s with
       | EmptyString => None
       | String _ s' => option_map S (index_from s' sep)
       end.

(** [strings.Index(s, sep)]: the byte offset of the first instance of
    [sep] in [s], or -1. *)
Definition Index (s sep : string) : Z :=
  match index_from s sep with
  | Some n => Z.of_nat n
  | None => -1
  end.

(** [strings.Contains(s, substr)] is [Index(s, substr) >= 0]. *)
Definition Contains (s substr : string) : bool := Index s substr >=? 0.

(** Membership of a byte in a set of bytes given as a string. *)
Fixpoint mem (c : ascii) (chars : string) : bool :=
  match chars with
  | EmptyString => false
  | String d chars' => Ascii.eqb c d || mem c chars'
  end.

Fixpoint index_any_from (s chars : string) : option nat :=
  match s with
  | EmptyString => None
  | String c s' =>
      if mem c chars then Some 0%nat
      else option_map S (index_any_from s' chars)
  end.

(** [strings.IndexAny(s, chars)]: the offset of the first byte of [s] that
    is in [chars], or -1.  (Go scans code points; for the ASCII set the
    program passes, the byte scan gives the same offset.) *)
Definition IndexAny (s chars : string) : Z :=
  match index_any_from s chars with
  | Some n => Z.of_nat n
  | None => -1
  end.

(** The scanner behind [Split]: [skip] counts the bytes of an already
    matched separator that are still to be passed over, [cur] is the
    field read so far. *)
Fixpoint split_scan (sep : string) (skip : nat) (cur s : string)
  : list string :=
  match s with
  | EmptyString => [cur]
  | String c s' =>
      match skip with
      | S k => split_scan sep k cur s'
      | O =>
          if HasPrefix s sep
          then cur :: split_scan sep (String.length sep - 1)%nat "" s'
          else split_scan sep 0 (cur ++ String c "")%string s'
      end
  end.

(** [strings.Split(s, sep)] for a non-empty [sep]: the fields of [s]
    between the instances of [sep]; always at least one field.  (For the
    empty separator Go explodes the string into characters; the program
    never passes it.) *)
Definition Split (s sep : string) : list string := split_scan sep 0 "" s.

(** [strings.Join(a, sep)]. *)
Definition Join (a : list string) (sep : string) : string :=
  String.concat sep a.

Fixpoint replace_scan (old new : string) (skip : nat) (s : string) : string :=
  match s with
  | EmptyString => ""
  | String c s' =>
      match skip with
      | S k => replace_scan old new k s'
      | O =>
          if HasPrefix s old
          then (new ++ replace_scan old new (String.length old - 1)%nat s')%string
          else String c (replace_scan old new 0 s')
      end
  end.

(** [strings.Replace(s, old, new, -1)] for a non-empty [old]: every
    non-overlapping instance of [old], from the left, replaced by [new]. *)
Definition ReplaceAll (s old new : string) : string :=
  replace_scan old new 0 s.

(** White space as [unicode.IsSpace] sees it on single bytes below 0x80:
    tab, line feed, vertical tab, form feed, carriage return, space. *)
Definition isSpace (c : ascii) : bool :=
  let n := nat_of_ascii c in
  ((9 <=? n)%nat && (n <=? 13)%nat) || (n =? 32)%nat.

Fixpoint trim_left (s : string) : string :=
  match s with
  | EmptyString => ""
  | String c s' => if isSpace c then trim_left s' else s
  end.

Fixpoint trim_right (s : string) : string :=
  match s with
  | EmptyString => ""
  | String c s' =>
      match trim_right s' with
      | EmptyString => if isSpace c then "" else String c ""
      | t => String c t
      end
  end.

(** [strings.TrimSpace(s)]: leading and trailing white space removed. *)
Definition TrimSpace (s : string) : string := trim_right (trim_left s).

(** The slice expression [s[0:n]] for [0 <= n <= len(s)]. *)
Definition slice_to (s : string) (n : Z) : string :=
  String.substring 0 (Z.to_nat n) s.

End strings.

(* ===================================================================== *)
(** ** Package [strconv] *)
(* ===================================================================== *)

Module strconv.

(** The width of [int]. *)
Definition IntSize : Z := 32.

Definition minInt : Z := - 2 ^ (IntSize - 1).
Definition maxInt : Z := 2 ^ (IntSize - 1) - 1.

(** Two's-complement wrap-around of [int] arithmetic. *)
Definition wrap (z : Z) : Z := (z + 2 ^ (IntSize - 1)) mod 2 ^ IntSize - 2 ^ (IntSize - 1).

(** [os.EINVAL] (syntax) and [os.ERANGE] (out of range) inside a [NumError]. *)
Inductive NumError := EINVAL | ERANGE.

Definition isDigit (c : ascii) : bool :=
  let n := nat_of_ascii c in (48 <=? n)%nat && (n <=? 57)%nat.

Definition digit (c : ascii) : Z := Z.of_nat (nat_of_ascii c) - 48.

(** The digit loop of [Atoui64]: stops at the first byte that is no decimal
    digit, or at the first digit that takes the value past 64 bits. *)
Fixpoint scan_digits (n : Z) (s : string) : Z * option NumError :=
  match s with
  | EmptyString => (n, None)
  | String c s' =>
      if negb (isDigit c) then (0, Some EINVAL)
      else
        let n1 := n * 10 + digit c in
        if n1 >=? 2 ^ 64 then (2 ^ 64 - 1, Some ERANGE) else scan_digits n1 s'
  end.

Definition Atoui64 (s : string) : Z * option NumError :=
  match s with
  | EmptyString => (0, Some EINVAL)
  | _ => scan_digits 0 s
  end.

Definition Atoi64 (s : string) : Z * option NumError :=
  match s with
  | EmptyString => (0, Some EINVAL)
  | String c s' =>
      let neg := Ascii.eqb c "-" in
      let body := if Ascii.eqb c "+" || neg then s' else s in
      let '(un, err) := Atoui64 body in
      match err with
      | Some EINVAL => (0, Some EINVAL)
      | _ =>
          if negb neg && (un >=? 2 ^ 63) then (2 ^ 63 - 1, Some ERANGE)
          else if neg && (un >? 2 ^ 63) then (- 2 ^ 63, Some ERANGE)
          else (if neg then - un else un, None)
      end
  end.

(** [strconv.Atoi(s)]: a decimal integer with an optional sign; the second
    component is the error ([None] for [nil]). *)
Definition Atoi (s : string) : Z * option NumError :=
  let '(i1, e1) := Atoi64 s in
  match e1 with
  | Some EINVAL => (0, Some EINVAL)
  | _ =>
      if i1 <? minInt then (minInt, Some ERANGE)
      else if i1 >? maxInt then (maxInt, Some ERANGE)
      else (i1, None)
  end.

(** [fmt.Sprintf("%v", i)] for an [int]. *)
Definition Itoa (i : Z) : string := NilEmpty.string_of_int (Z.to_int i).

End strconv.

(* ===================================================================== *)
(** ** Packages [os], [path/filepath] and [io/ioutil] *)
(* ===================================================================== *)

Module os.

(** A non-nil [*os.File].  The standard streams are the two handles the
    process starts with; every other handle comes from [Open] or [Create]. *)
Inductive File :=
| Stdin
| Stdout
| Handle (fd : nat) (path : string).

(** The operating system as the program sees it: which paths can be opened
    for reading and which created, what a pattern matches, what a file holds,
    and the handles that have been closed so far (most recent first). *)
Record World := mkWorld {
  readable : string -> bool;
  creatable : string -> bool;
  matches : string -> list string;
  contents : string -> option string;
  next_fd : nat;
  closed : list File
}.

Definition fresh_handle (name : string) (w : World) : File * World :=
  (Handle (next_fd w) name,
   mkWorld (readable w) (creatable w) (matches w) (contents w)
           (S (next_fd w)) (closed w)).

(** [os.Open(name)]: the handle, or [None] with the error set. *)
Definition Open (name : string) (w : World) : option File * World :=
  if readable w name
  then let '(h, w') := fresh_handle name w in (Some h, w')
  else (None, w).

(** [os.Create(name)]. *)
Definition Create (name : string) (w : World) : option File * World :=
  if creatable w name
  then let '(h, w') := fresh_handle name w in (Some h, w')
  else (None, w).

(** [File.Close()]: on a nil receiver it returns [EINVAL] and does
    nothing; otherwise the handle is closed. *)
Definition Close (file : option File) (w : World) : World :=
  match file with
  | None => w
  | Some h =>
      mkWorld (readable w) (creatable w) (matches w) (contents w)
              (next_fd w) (h :: closed w)
  end.

End os.

Module filepath.

(** [filepath.Glob(pattern)]: the names of the files matching [pattern], in
    sorted order; no match and a malformed pattern both give no name (the
    caller drops the error). *)
Definition Glob (pattern : string) (w : os.World) : list string :=
  os.matches w pattern.

End filepath.

Module ioutil.

(** [ioutil.ReadFile(filename)]: the whole file, or [None] for an error. *)
Definition ReadFile (filename : string) (w : os.World) : option string :=
  os.contents w filename.

End ioutil.

(* ===================================================================== *)
(** ** Outcomes of a run *)
(* ===================================================================== *)

(** The diagnostics after which the process terminates: the three of
    [quitf] in this package, and those of the base registry, which is
    created with [flag.ExitOnError]. *)
Inductive Diag :=
| BadFlagIndex (suffix : string)
| InvalidArgument (val : string) (position : Z)
| CannotOpenConfig (filename : string)
| BadFlagSyntax (s : string)
| FlagNotDefined (name : string)
| FlagNeedsArgument (name : string)
| InvalidFlagValue (value name : string).

(** Run-time panics. *)
Inductive Fault :=
| IndexOutOfRange
| NilDereference
| FlagRedefined.

(** A call returns, or the process exits with a status after a
    diagnostic ([os.Exit]), or the run-time system panics. *)
Inductive result (A : Type) :=
| Ok (a : A)
| Exit (code : Z) (d : Diag)
| Panic (p : Fault).

Arguments Ok {A} a.
Arguments Exit {A} code d.
Arguments Panic {A} p.

#[export] Instance result_ret : MRet result := fun A a => Ok a.

#[export] Instance result_bind : MBind result := fun A B k m =>
  match m with
  | Ok a => k a
  | Exit code d => Exit code d
  | Panic p => Panic p
  end.

(** Go's [a[i]] and [a[i:]] on a slice, with their bounds checks. *)
Definition index_at {A : Type} (a : list A) (i : Z) : result A :=
  if (0 <=? i) && (i <? Z.of_nat (length a))
  then match nth_error a (Z.to_nat i) with
       | Some x => Ok x
       | None => Panic IndexOutOfRange
       end
  else Panic IndexOutOfRange.

Definition slice_from {A : Type} (a : list A) (i : Z) : result (list A) :=
  if (0 <=? i) && (i <=? Z.of_nat (length a))
  then Ok (skipn (Z.to_nat i) a)
  else Panic IndexOutOfRange.

(* ===================================================================== *)
(** ** [fileValue]: a flag value that owns a file handle *)
(* ===================================================================== *)

(** [type fileValue struct { f *os.File; name string; in, std bool }] *)
Record fileValue := mkFileValue {
  fv_f : option os.File;
  fv_name : string;
  fv_in : bool;
  fv_std : bool
}.

Definition fileValue_String (this : fileValue) : string := fv_name this.

(** [func (this *fileValue) Set(name string) bool] *)
Definition fileValue_Set (name : string) (this : fileValue) (w : os.World)
  : bool * fileValue * os.World :=
  if (String.length name =? 0)%nat then (false, this, w)
  else if String.eqb name "stdin" then
    (true, mkFileValue (Some os.Stdin) name (fv_in this) (fv_std this), w)
  else if String.eqb name "stdout" then
    (true, mkFileValue (Some os.Stdout) name (fv_in this) (fv_std this), w)
  else
    let this := mkFileValue (fv_f this) (fv_name this) (fv_in this) false in
    let '(f, w) := if fv_in this then os.Open name w else os.Create name w in
    match f with
    | None => (false, this, w)
    | Some h => (true, mkFileValue (Some h) name (fv_in this) (fv_std this), w)
    end.

(** [func (this *fileValue) Close()] *)
Definition fileValue_Close (this : fileValue) (w : os.World) : os.World :=
  if negb (fv_std this) then os.Close (fv_f this) w else w.

(** [func newFileValue (name string, in bool) *fileValue] *)
Definition newFileValue (name : string) (in_ : bool) : fileValue :=
  mkFileValue None name in_ true.

(* ===================================================================== *)
(** ** [ValueList] and its converters *)
(* ===================================================================== *)

(** [type Converter interface { Convert(value string) bool }]: the method
    works on its receiver and on the operating system. *)
Class Converter (T : Type) :=
  Convert : string -> T -> os.World -> bool * T * os.World.

(** The [range] loop of [ValueList.Set]. *)
Fixpoint Set_range {T : Type} `{Converter T} (values : list string)
    (this : T) (w : os.World) : bool * T * os.World :=
  match values with
  | [] => (true, this, w)
  | v :: values' =>
      let '(ok, this, w) := Convert v this w in
      if negb ok then (false, this, w) else Set_range values' this w
  end.

(** [func (this *ValueList) Set(value string) bool], with the converter
    being the value that embeds the [ValueList]. *)
Definition ValueList_Set {T : Type} `{Converter T} (value : string)
    (this : T) (w : os.World) : bool * T * os.World :=
  let values := strings.Split value "," in
  Set_range values this w.

(** [type ValueList struct { name string; converter Converter }]; the
    [converter] field points back to the enclosing value. *)
Record ValueList := mkValueList { vl_name : string }.

Definition makeValueList (def : string) : ValueList := mkValueList def.

(** [type filesValue struct { ValueList; names []string }] *)
Record filesValue := mkFilesValue {
  files_ValueList : ValueList;
  names : list string
}.

(** [func (this *filesValue) Convert(v string) bool] *)
#[export] Instance filesValue_Convert : Converter filesValue :=
  fun v this w =>
    let file := newFileValue v true in
    let '(ok, file, w) := fileValue_Set v file w in
    if negb ok then (false, this, w)
    else
      let w := fileValue_Close file w in
      (true, mkFilesValue (files_ValueList this) (names this ++ [fv_name file]), w).

(** [type intsValue struct { ValueList; ints []int }] *)
Record intsValue := mkIntsValue {
  ints_ValueList : ValueList;
  ints : list Z
}.

(** [func (this *intsValue) Convert(v string) bool] *)
#[export] Instance intsValue_Convert : Converter intsValue :=
  fun v this w =>
    let '(i, e) := strconv.Atoi v in
    match e with
    | Some _ => (false, this, w)
    | None => (true, mkIntsValue (ints_ValueList this) (ints this ++ [i]), w)
    end.

(** [type stringsValue struct { ValueList; strings []string }] *)
Record stringsValue := mkStringsValue {
  strings_ValueList : ValueList;
  strings_ : list string
}.

(** [func (this *stringsValue) Convert(v string) bool] *)
#[export] Instance stringsValue_Convert : Converter stringsValue :=
  fun v this w =>
    (true, mkStringsValue (strings_ValueList this) (strings_ this ++ [v]), w).

(* ===================================================================== *)
(** ** Package [flag]: the base registry *)
(* ===================================================================== *)

(** The memory the values of a registry live in: the [fileValue] objects,
    addressed by their position (a [*fileValue] is an index into [heap]),
    and the operating system. *)
Record State := mkState {
  heap : list fileValue;
  world : os.World
}.

Module flag.

(** The dynamic types behind the interface [flag.Value] in a registry of
    this package: the base registry's string and integer values, a pointer
    to a [fileValue], and the three list values. *)
Inductive Value :=
| VString (s : string)
| VInt (i : Z)
| VFile (p : nat)
| VFiles (l : filesValue)
| VInts (l : intsValue)
| VStrings (l : stringsValue).

(** The method [Set(string) bool] of each dynamic type.  The base
    registry's [intValue.Set] stores what [Atoi] returned and reports
    whether there was no error; [stringValue.Set] never fails. *)
Definition Value_Set (v : Value) (s : string) (st : State)
  : result (bool * Value * State) :=
  match v with
  | VString _ => Ok (true, VString s, st)
  | VInt _ =>
      let '(i, e) := strconv.Atoi s in
      Ok (match e with None => true | Some _ => false end, VInt i, st)
  | VFile p =>
      match heap st !! p with
      | None => Panic NilDereference
      | Some this =>
          let '(ok, this, w) := fileValue_Set s this (world st) in
          Ok (ok, VFile p, mkState (<[p := this]> (heap st)) w)
      end
  | VFiles l =>
      let '(ok, l, w) := ValueList_Set s l (world st) in
      Ok (ok, VFiles l, mkState (heap st) w)
  | VInts l =>
      let '(ok, l, w) := ValueList_Set s l (world st) in
      Ok (ok, VInts l, mkState (heap st) w)
  | VStrings l =>
      let '(ok, l, w) := ValueList_Set s l (world st) in
      Ok (ok, VStrings l, mkState (heap st) w)
  end.

(** The method [String() string]. *)
Definition Value_String (v : Value) (st : State) : result string :=
  match v with
  | VString s => Ok s
  | VInt i => Ok (strconv.Itoa i)
  | VFile p =>
      match heap st !! p with
      | None => Panic NilDereference
      | Some this => Ok (fileValue_String this)
      end
  | VFiles l => Ok (vl_name (files_ValueList l))
  | VInts l => Ok (vl_name (ints_ValueList l))
  | VStrings l => Ok (vl_name (strings_ValueList l))
  end.

(** [type Flag struct { Name, Usage string; Value Value; DefValue string }] *)
Record Flag := mkFlag {
  Name : string;
  Usage : string;
  Val : Value;
  DefValue : string
}.

(** [type FlagSet struct]: the registered flags, in the order [VisitAll]
    goes through them, and the arguments left after the flags. *)
Record FlagSet := mkFlagSet {
  formal : list Flag;
  args : list string
}.

Definition NewFlagSet : FlagSet := mkFlagSet [] [].

Definition lookup (name : string) (flags : list Flag) : option Flag :=
  find (fun fl => String.eqb (Name fl) name) flags.

(** Writing through the [*Flag] registered under [name]. *)
Definition store (name : string) (v : Value) (flags : list Flag) : list Flag :=
  map (fun fl => if String.eqb (Name fl) name
                 then mkFlag (Name fl) (Usage fl) v (DefValue fl) else fl) flags.

(** [func (f *FlagSet) Var(value Value, name string, usage string)] *)
Definition Var (f : FlagSet) (value : Value) (name usage : string) (st : State)
  : result FlagSet :=
  def ← Value_String value st;
  match lookup name (formal f) with
  | Some _ => Panic FlagRedefined
  | None => Ok (mkFlagSet (formal f ++ [mkFlag name usage value def]) (args f))
  end.

(** [func (f *FlagSet) Args() []string] *)
Definition Args (f : FlagSet) : list string := args f.

(** [func (f *FlagSet) VisitAll(fn)]: [fn] may write through
    the flag it is given and change the memory. *)
Fixpoint visit (fn : Flag -> State -> result (Flag * State))
    (flags : list Flag) (st : State) : result (list Flag * State) :=
  match flags with
  | [] => Ok ([], st)
  | fl :: flags' =>
      '(fl, st) ← fn fl st;
      '(flags', st) ← visit fn flags' st;
      Ok (fl :: flags', st)
  end.

Definition VisitAll (f : FlagSet) (fn : Flag -> State -> result (Flag * State))
    (st : State) : result (FlagSet * State) :=
  '(flags, st) ← visit fn (formal f) st;
  Ok (mkFlagSet flags (args f), st).

(** How [parseOne] reads the next argument. *)
Inductive token :=
| NonFlag
| Terminator
| BadSyntax
| FlagArg (name : string) (value : option string).

Fixpoint string_drop (n : nat) (s : string) : string :=
  match n, s with
  | O, _ => s
  | S n', String _ s' => string_drop n' s'
  | S _, EmptyString => ""
  end.

Definition classify (s : string) : token :=
  match s with
  | String c0 (String c1 rest) =>
      if negb (Ascii.eqb c0 "-") then NonFlag
      else if Ascii.eqb c1 "-" && (String.length rest =? 0)%nat then Terminator
      else
        let name := if Ascii.eqb c1 "-" then rest else String c1 rest in
        match name with
        | EmptyString => BadSyntax
        | String n0 _ =>
            if Ascii.eqb n0 "-" || Ascii.eqb n0 "=" then BadSyntax
            else
              let i := strings.Index name "=" in
              if i >=? 0
              then FlagArg (strings.slice_to name i)
                           (Some (string_drop (Z.to_nat (i + 1)) name))
              else FlagArg name None
        end
  | _ => NonFlag
  end.

(** [func (f *FlagSet) Parse(arguments []string)] with [parseOne] unfolded
    into its loop: flags are read from the front of [arguments] until the
    first argument that is no flag, or the terminator [--].  The registry is
    created with [ExitOnError], so every error of [parseOne] ends the
    process with status 2.  The boolean special case is left out: no
    boolean value is among [Value]. *)
Fixpoint parse (flags : list Flag) (arguments : list string) (st : State)
  : result (FlagSet * State) :=
  match arguments with
  | [] => Ok (mkFlagSet flags [], st)
  | s :: rest =>
      match classify s with
      | NonFlag => Ok (mkFlagSet flags arguments, st)
      | Terminator => Ok (mkFlagSet flags rest, st)
      | BadSyntax => Exit 2 (BadFlagSyntax s)
      | FlagArg name has_value =>
          match lookup name flags with
          | None => Exit 2 (FlagNotDefined name)
          | Some fl =>
              match has_value with
              | Some value =>
                  '(ok, v, st) ← Value_Set (Val fl) value st;
                  if negb ok then Exit 2 (InvalidFlagValue value name)
                  else parse (store name v flags) rest st
              | None =>
                  match rest with
                  | [] => Exit 2 (FlagNeedsArgument name)
                  | value :: rest' =>
                      '(ok, v, st) ← Value_Set (Val fl) value st;
                      if negb ok then Exit 2 (InvalidFlagValue value name)
                      else parse (store name v flags) rest' st
                  end
              end
          end
      end
  end.

Definition Parse (f : FlagSet) (arguments : list string) (st : State)
  : result (FlagSet * State) :=
  parse (formal f) arguments st.

End flag.

(* ===================================================================== *)
(** ** Package [xflag]: [FlagExtra] *)
(* ===================================================================== *)

(** [type FlagExtra struct { *flag.FlagSet; Files []*fileValue }] *)
Record FlagExtra := mkFlagExtra {
  FlagSet : flag.FlagSet;
  Files : list nat
}.

(** [func NewFlag () *FlagExtra] *)
Definition NewFlag : FlagExtra := mkFlagExtra flag.NewFlagSet [].

(** [func (fx *FlagExtra) addFile (f *fileValue)] *)
Definition addFile (fx : FlagExtra) (f : nat) : FlagExtra :=
  mkFlagExtra (FlagSet fx) (Files fx ++ [f]).

Fixpoint Close_range (files : list nat) (st : State) : result State :=
  match files with
  | [] => Ok st
  | p :: files' =>
      match heap st !! p with
      | None => Panic NilDereference
      | Some f =>
          Close_range files' (mkState (heap st) (fileValue_Close f (world st)))
      end
  end.

(** [func (fx *FlagExtra) Close ()] *)
Definition Close (fx : FlagExtra) (st : State) : result State :=
  Close_range (Files fx) st.

(** The body of the loop of [glob]. *)
Definition glob_step (w : os.World) (xcmds : list string) (a : string)
  : list string :=
  if strings.IndexAny a "*?" >? -1
  then xcmds ++ filepath.Glob a w
  else xcmds ++ [a].

(** [func glob (cmdline []string) []string] *)
Definition glob (cmdline : list string) (w : os.World) : list string :=
  fold_left (glob_step w) cmdline [].

(** The type assertion [flag.Value.(ListValue)]: the values that embed a
    [ValueList] have the marker method. *)
Definition isListValue (v : flag.Value) : bool :=
  match v with
  | flag.VFiles _ | flag.VInts _ | flag.VStrings _ => true
  | _ => false
  end.

(** The value the visitor of [Parse] picks for a flag whose zero-based
    position is [idx]. *)
Definition positional_val (fl : flag.Flag) (args : list string) (idx : Z)
  : result string :=
  if idx <? Z.of_nat (length args) then
    if isListValue (flag.Val fl)
    then a ← slice_from args idx; Ok (strings.Join a ",")
    else index_at args idx
  else Ok (flag.DefValue fl).

(** The function [Parse] hands to [VisitAll]. *)
Definition Parse_visit (args : list string) (fl : flag.Flag) (st : State)
  : result (flag.Flag * State) :=
  match flag.Name fl with
  | EmptyString => Panic IndexOutOfRange
  | String c suffix =>
      if Ascii.eqb c "#" then
        let '(idx, e) := strconv.Atoi suffix in
        match e with
        | Some _ => Exit 1 (BadFlagIndex suffix)
        | None =>
            let idx := strconv.wrap (idx - 1) in
            val ← positional_val fl args idx;
            '(res, v, st) ← flag.Value_Set (flag.Val fl) val st;
            if negb res
            then Exit 1 (InvalidArgument val (strconv.wrap (idx + 1)))
            else Ok (flag.mkFlag (flag.Name fl) (flag.Usage fl) v
                                 (flag.DefValue fl), st)
        end
      else Ok (fl, st)
  end.

(** [func (fx *FlagExtra) Parse(cmdline []string, doGlob bool)] *)
Definition Parse (fx : FlagExtra) (cmdline : list string) (doGlob : bool)
    (st : State) : result (FlagExtra * State) :=
  let cmdline := if doGlob then glob cmdline (world st) else cmdline in
  '(fs, st) ← flag.Parse (FlagSet fx) cmdline st;
  let args := flag.Args fs in
  '(fs, st) ← flag.VisitAll fs (Parse_visit args) st;
  Ok (mkFlagExtra fs (Files fx), st).

(** [func (fx *FlagExtra) ParseArgs()], given [os.Args] and whether the
    host is Windows. *)
Definition ParseArgs (fx : FlagExtra) (os_Args : list string)
    (isWindows : bool) (st : State) : result (FlagExtra * State) :=
  cmdline ← slice_from os_Args 1;
  Parse fx cmdline isWindows st.

(** The body of the loop of [ParseConfig]. *)
Definition config_step (out : list string) (line : string) : list string :=
  let idx := strings.Index line "#" in
  let line := if idx >? -1 then strings.slice_to line idx else line in
  let line := strings.TrimSpace line in
  if (0 <? String.length line)%nat then
    let line := if strings.Contains line "=" then ("-" ++ line)%string else line in
    out ++ [line]
  else out.

(** The token sequence [ParseConfig] builds from the bytes of the file. *)
Definition config_tokens (bytes : string) : list string :=
  let contents :=
    strings.ReplaceAll bytes (String "013" (String "010" "")) (String "010" "") in
  let lines := strings.Split contents (String "010" "") in
  fold_left config_step lines [].

(** [func (fx *FlagExtra) ParseConfig(filename string)] *)
Definition ParseConfig (fx : FlagExtra) (filename : string) (st : State)
  : result (FlagExtra * State) :=
  match ioutil.ReadFile filename (world st) with
  | None => Exit 1 (CannotOpenConfig filename)
  | Some bytes => Parse fx (config_tokens bytes) true st
  end.

(** [func (fx *FlagExtra) newFileValue(name string, in bool) *fileValue]:
    the new object is allocated at the end of the heap. *)
Definition FlagExtra_newFileValue (fx : FlagExtra) (name : string) (in_ : bool)
    (st : State) : nat * FlagExtra * State :=
  let file := length (heap st) in
  (file, addFile fx file, mkState (heap st ++ [newFileValue name in_]) (world st)).

Definition register (fx : FlagExtra) (value : flag.Value) (name usage : string)
    (st : State) : result (FlagExtra * State) :=
  fs ← flag.Var (FlagSet fx) value name usage st;
  Ok (mkFlagExtra fs (Files fx), st).

(** [func (fx *FlagExtra) OpenFile(name, def, usage string) **os.File] *)
Definition OpenFile (fx : FlagExtra) (name def usage : string) (st : State)
  : result (FlagExtra * State) :=
  let '(file, fx, st) := FlagExtra_newFileValue fx def true st in
  register fx (flag.VFile file) name usage st.

(** [func (fx *FlagExtra) CreateFile(name, def, usage string) **os.File] *)
Definition CreateFile (fx : FlagExtra) (name def usage : string) (st : State)
  : result (FlagExtra * State) :=
  let '(file, fx, st) := FlagExtra_newFileValue fx def false st in
  register fx (flag.VFile file) name usage st.

(** [func (fx *FlagExtra) OpenFileList(name, def, usage string) *[]string] *)
Definition OpenFileList (fx : FlagExtra) (name def usage : string) (st : State)
  : result (FlagExtra * State) :=
  register fx (flag.VFiles (mkFilesValue (makeValueList def) [])) name usage st.

(** [func (fx *FlagExtra) IntList(name, def, usage string) *[]int] *)
Definition IntList (fx : FlagExtra) (name def usage : string) (st : State)
  : result (FlagExtra * State) :=
  register fx (flag.VInts (mkIntsValue (makeValueList def) [])) name usage st.

(** [func (fx *FlagExtra) StringList(name, def, usage string) *[]string] *)
Definition StringList (fx : FlagExtra) (name def usage : string) (st : State)
  : result (FlagExtra * State) :=
  register fx (flag.VStrings (mkStringsValue (makeValueList def) [])) name usage st.

(** [String] and [Int] of the embedded [*flag.FlagSet]: both are [Var] on
    a new string or integer value. *)
Definition String_ (fx : FlagExtra) (name value usage : string) (st : State)
  : result (FlagExtra * State) :=
  register fx (flag.VString value) name usage st.

Definition Int (fx : FlagExtra) (name : string) (value : Z) (usage : string)
    (st : State) : result (FlagExtra * State) :=
  register fx (flag.VInt value) name usage st.

(* ===================================================================== *)
(** ** Definitions used by the statements *)
(* ===================================================================== *)

(** A converter that behaves as [C] and also records, in call order, every
    part it is asked to convert. *)
Definition traced {T : Type} (C : Converter T) : Converter (T * list string) :=
  fun v this w =>
    let '(ok, t, w) := C v (fst this) w in (ok, (t, snd this ++ [v]), w).

(** A list value seen as an accumulation of elements: [elements] reads the
    accumulated slice, [converted] is the element a part becomes. *)
Class Accumulation (T E : Type) := {
  elements : T -> list E;
  converted : string -> E
}.

#[export] Instance intsValue_Accumulation : Accumulation intsValue Z := {
  elements := ints;
  converted := fun v => fst (strconv.Atoi v)
}.

#[export] Instance stringsValue_Accumulation : Accumulation stringsValue string := {
  elements := strings_;
  converted := fun v => v
}.

#[export] Instance filesValue_Accumulation : Accumulation filesValue string := {
  elements := names;
  converted := fun v => v
}.

(** A converter appends: a successful [Convert] adds the converted part at
    the end of the accumulation, a failed one leaves it as it was. *)
Definition appends (T E : Type) `{Converter T} `{Accumulation T E} : Prop :=
  forall v this w ok this' w',
    Convert v this w = (ok, this', w') ->
    elements this' = elements this ++ (if ok then [converted v] else []).

(** A sequence of [Set] calls on one list value, results dropped. *)
Fixpoint Set_calls {T : Type} `{Converter T} (tokens : list string)
    (this : T) (w : os.World) : T * os.World :=
  match tokens with
  | [] => (this, w)
  | token :: tokens' =>
      let '(_, this, w) := ValueList_Set token this w in
      Set_calls tokens' this w
  end.

(** The property that only the last [Set] call shows in the accumulation. *)
Definition last_Set_only (T E : Type) `{Converter T} `{Accumulation T E} : Prop :=
  forall tokens token this w this1 w1 this2 w2,
    elements this = [] ->
    Set_calls tokens this w = (this1, w1) ->
    ValueList_Set token this1 w1 = (true, this2, w2) ->
    elements this2 = map converted (strings.Split token ",").

(** An operating system with one readable file, two files matching [*.go]
    and a configuration file. *)
Definition sample_world : os.World :=
  os.mkWorld
    (fun p => String.eqb p "a.txt")
    (fun _ => true)
    (fun p => if String.eqb p "*.go" then ["a.go"; "b.go"] else [])
    (fun p =>
       if String.eqb p "animal.conf"
       then Some ("# comment line is ignored" ++ String "010" "name=bonzo dog"
                  ++ String "013" (String "010" "age=12  # age of animal")
                  ++ String "010" "owners=Alice,John" ++ String "010" "")%string
       else if String.eqb p "empty.conf"
       then Some ("# only comments" ++ String "010" "   " ++ String "010" "")%string
       else if String.eqb p "hash.conf" then Some "name=a#b"
       else if String.eqb p "age.conf" then Some "age=12  # age of animal"
       else if String.eqb p "plain.conf" then Some "name=bonzo dog"
       else None)
    3 [].

Definition sample_state : State := mkState [] sample_world.

(** The elements accumulated in the list value of a flag (none for a
    scalar), and the element a part becomes there. *)
Definition Value_elements (v : flag.Value) : list (Z + string) :=
  match v with
  | flag.VInts l => map inl (ints l)
  | flag.VStrings l => map inr (strings_ l)
  | flag.VFiles l => map inr (names l)
  | _ => []
  end.

Definition Value_converted (v : flag.Value) (part : string) : Z + string :=
  match v with
  | flag.VInts _ => inl (fst (strconv.Atoi part))
  | _ => inr part
  end.

(** What a registration returned, for the registries of the examples. *)
Definition registered (r : result (FlagExtra * State)) : FlagExtra * State :=
  match r with
  | Ok a => a
  | _ => (NewFlag, sample_state)
  end.

(** [flag.OpenFile("i", "stdin", "input file")] *)
Definition input_registry : FlagExtra * State :=
  registered (OpenFile NewFlag "i" "stdin" "input file" sample_state).

(** A token contains a wildcard character: ['*'] or ['?']. *)
Fixpoint contains_wildcard (a : string) : bool :=
  match a with
  | EmptyString => false
  | String c a' => Ascii.eqb c "*" || Ascii.eqb c "?" || contains_wildcard a'
  end.

(** The value an ordinal flag [#N] is set to: inside the arguments, the
    rest of them joined for a list value and the [N]th one for a scalar;
    outside, the declared default. *)
Definition ordinal_value (fl : flag.Flag) (args : list string) (N : Z) : string :=
  if N - 1 <? Z.of_nat (length args) then
    if isListValue (flag.Val fl)
    then strings.Join (drop (Z.to_nat (N - 1)) args) ","
    else nth (Z.to_nat (N - 1)) args ""
  else flag.DefValue fl.

(** The same with the default kept for scalars only: a list value always
    gets the joined rest of the arguments. *)
Definition ordinal_value_joined (fl : flag.Flag) (args : list string) (N : Z)
  : string :=
  if isListValue (flag.Val fl)
  then strings.Join (drop (Z.to_nat (N - 1)) args) ","
  else if N - 1 <? Z.of_nat (length args)
       then nth (Z.to_nat (N - 1)) args ""
       else flag.DefValue fl.

(** [Set] called on the value of [fl] with [val], and what the visitor does
    with the answer. *)
Definition Set_flag (fl : flag.Flag) (val : string) (N : Z) (st : State)
  : result (flag.Flag * State) :=
  '(res, v, st) ← flag.Value_Set (flag.Val fl) val st;
  if negb res then Exit 1 (InvalidArgument val N)
  else Ok (flag.mkFlag (flag.Name fl) (flag.Usage fl) v (flag.DefValue fl), st).

(** The property that the visitor sets every ordinal flag with
    [ordinal_value_joined]. *)
Definition sets_joined_value : Prop :=
  forall args fl suffix N st,
    flag.Name fl = String "#" suffix ->
    strconv.Atoi suffix = (N, None) -> 1 <= N ->
    Parse_visit args fl st = Set_flag fl (ordinal_value_joined fl args N) N st.

(** [flag.IntList("#1", "0", "set of ints")], as registered. *)
Definition ints_flag : flag.Flag :=
  flag.mkFlag "#1" "set of ints"
    (flag.VInts (mkIntsValue (makeValueList "0") [])) "0".

(** [flag.String("#2", "dolly", "name of object")], as registered. *)
Definition name_flag : flag.Flag :=
  flag.mkFlag "#2" "name of object" (flag.VString "dolly") "dolly".

Definition LF : string := String "010" "".
Definition CRLF : string := String "013" (String "010" "").

(** A line up to its first ['#']. *)
Fixpoint strip_comment (line : string) : string :=
  match line with
  | EmptyString => ""
  | String c line' =>
      if Ascii.eqb c "#" then "" else String c (strip_comment line')
  end.

(** The token a line of the file becomes, if any: the line without its
    comment and the white space around it; a hyphen goes before it when it
    holds an ['=']; a line left empty gives no token. *)
Definition line_token (line : string) : list string :=
  let l := strings.TrimSpace (strip_comment line) in
  if String.eqb l "" then []
  else [if strings.Contains l "=" then ("-" ++ l)%string else l].

(** A flag that is not positional: its name is non-empty and does not
    start with ['#']. *)
Definition named (fl : flag.Flag) : bool :=
  match flag.Name fl with
  | EmptyString => false
  | String c _ => negb (Ascii.eqb c "#")
  end.

(** The flag bound to [name] in what a parse returned. *)
Definition bound (name : string) (r : result (FlagExtra * State))
  : option flag.Value :=
  match r with
  | Ok (fx, _) => option_map flag.Val (flag.lookup name (flag.formal (FlagSet fx)))
  | _ => None
  end.

(** The property that a configuration line and the command-line flag of
    the same text bind the same value. *)
Definition config_line_as_flag : Prop :=
  forall fx st filename name value doGlob,
    ioutil.ReadFile filename (world st) = Some (name ++ "=" ++ value)%string ->
    bound name (ParseConfig fx filename st)
    = bound name (Parse fx [("-" ++ name ++ "=" ++ value)%string] doGlob st).

(** The registry of the configuration example:
    [String("name", "dolly", ...)], [Int("age", 40, ...)],
    [StringList("owners", "self", ...)]. *)
Definition animal_registry : FlagExtra * State :=
  let '(fx, st) := registered (String_ NewFlag "name" "dolly" "name of object"
                                 sample_state) in
  let '(fx, st) := registered (Int fx "age" 40 "age of object" st) in
  registered (StringList fx "owners" "self" "owners of this animal" st).

(** The handles the teardown hands to [File.Close], in call order: for
    each tracked value that is not marked [std], the handle it holds now. *)
Definition closing (hp : list fileValue) (files : list nat) : list os.File :=
  flat_map (fun p =>
              match hp !! p with
              | Some f =>
                  if fv_std f then []
                  else match fv_f f with
                       | Some h => [h]
                       | None => []
                       end
              | None => []
              end) files.

(** The operating system with another log of closed handles. *)
Definition set_closed (log : list os.File) (w : os.World) : os.World :=
  os.mkWorld (os.readable w) (os.creatable w) (os.matches w) (os.contents w)
             (os.next_fd w) log.

(** The handles [Open] returns for [paths], one after the other, when the
    descriptor counter stands at [n]. *)
Fixpoint handles (n : nat) (paths : list string) : list os.File :=
  match paths with
  | [] => []
  | path :: paths' => os.Handle n path :: handles (S n) paths'
  end.

(** [Atoi] reads the part without error. *)
Definition parses (p : string) : bool :=
  match snd (strconv.Atoi p) with
  | None => true
  | Some _ => false
  end.

(** What identifies a registered flag apart from its value. *)
Definition shape (fl : flag.Flag) : string * string * string :=
  (flag.Name fl, flag.Usage fl, flag.DefValue fl).

(** Every [fileValue] of the heap is in [fx.Files], in creation order. *)
Definition all_tracked (fx : FlagExtra) (st : State) : Prop :=
  Files fx = seq 0 (length (heap st)).

(** An operating system where [*.go] matches two files and the
    configuration file [files.conf] holds the line [files=*.go]. *)
Definition wildcard_world : os.World :=
  os.mkWorld (fun _ => true) (fun _ => true)
    (fun p => if String.eqb p "*.go" then ["a.go"; "b.go"] else [])
    (fun p => if String.eqb p "files.conf" then Some "files=*.go" else None)
    3 [].

(** [flag.OpenFileList("files", "", "input files")] *)
Definition files_registry : FlagExtra * State :=
  registered (OpenFileList NewFlag "files" "" "input files"
                (mkState [] wildcard_world)).

(** A line of text: no line feed and no carriage return in it. *)
Definition one_line (l : string) : bool :=
  negb (strings.mem "010" l) && negb (strings.mem "013" l).

(** The flag registered under [name] in what a registration or a parse
    returned. *)
Definition declared (name : string) (r : result (FlagExtra * State))
  : option flag.Flag :=
  match r with
  | Ok (fx, _) => flag.lookup name (flag.formal (FlagSet fx))
  | _ => None
  end.

(** The command line starts with no flag: it is empty, or its first
    token is not read as a flag. *)
Definition no_flag_ahead (cmdline : list string) : bool :=
  match cmdline with
  | [] => true
  | a :: _ => match flag.classify a with flag.NonFlag => true | _ => false end
  end.

(* ===================================================================== *)
(** ** List values *)
(* ===================================================================== *)

Lemma Set_range_app {T : Type} `{Converter T} (pre post : list string) :
  forall this w this1 w1,
    Set_range pre this w = (true, this1, w1) ->
    Set_range (pre ++ post) this w = Set_range post this1 w1.
Proof.
  induction pre as [|v pre IH]; intros this w this1 w1 Hpre; simpl in *.
  - by inversion Hpre.
  - destruct (Convert v this w) as [[ok t] w0] eqn:E.
    destruct ok; simpl in *; [eauto | discriminate].
Qed.

(** The loop calls [Convert] on the parts from the left and stops at the
    first part that fails. *)
Lemma Set_range_calls {T : Type} (C : Converter T) (values : list string) :
  forall this log w,
  exists ok this' w' calls,
    Set_range values this w = (ok, this', w') /\
    @Set_range _ (traced C) values (this, log) w = (ok, (this', log ++ calls), w') /\
    ((ok = true /\ calls = values) \/
     (ok = false /\
      exists pre bad post this1 w1,
        values = pre ++ bad :: post /\ calls = pre ++ [bad] /\
        Set_range pre this w = (true, this1, w1) /\
        Convert bad this1 w1 = (false, this', w'))).
Proof.
  induction values as [|v values IH]; intros this log w.
  - exists true, this, w, []. rewrite app_nil_r. simpl. auto.
  - simpl. unfold Convert at 2, traced at 1. simpl.
    change (C v this w) with (Convert v this w).
    destruct (Convert v this w) as [[ok t] w0] eqn:E. destruct ok; simpl.
    + destruct (IH t (log ++ [v]) w0) as (ok & this' & w' & calls & H1 & H2 & H3).
      exists ok, this', w', (v :: calls). rewrite H1, H2.
      split; [done|]. split; [by rewrite <- app_assoc|].
      destruct H3 as [[-> ->]|(-> & pre & bad & post & this1 & w1 & -> & -> & Hp & Hb)].
      * by left.
      * right. split; [done|]. exists (v :: pre), bad, post, this1, w1.
        simpl. rewrite E. simpl. by repeat split.
    + exists false, t, w0, [v]. repeat split; try done.
      right. split; [done|]. by exists [], v, values, this, w.
Qed.

(** With an appending converter, a successful pass over [values] adds the
    converted values, in order, behind what was accumulated before. *)
Lemma Set_range_elements {T E : Type} `{Converter T} `{Accumulation T E} :
  appends T E ->
  forall values this w this' w',
    Set_range values this w = (true, this', w') ->
    elements this' = elements this ++ map converted values.
Proof.
  intros Happ. induction values as [|v values IH]; intros this w this' w' Hrun.
  - simpl in *. inversion Hrun. by rewrite app_nil_r.
  - simpl in Hrun. destruct (Convert v this w) as [[ok t] w0] eqn:Ec.
    destruct ok; simpl in Hrun; [|discriminate].
    rewrite (IH _ _ _ _ Hrun), (Happ _ _ _ _ _ _ Ec). simpl.
    by rewrite <- app_assoc.
Qed.

Lemma fileValue_Set_name (name : string) (this : fileValue) (w : os.World) :
  forall this' w',
    fileValue_Set name this w = (true, this', w') -> fv_name this' = name.
Proof.
  intros this' w'. unfold fileValue_Set.
  repeat case_match; intros Heq; inversion Heq; subst; try done.
Qed.

Lemma intsValue_appends : appends intsValue Z.
Proof.
  intros v this w ok this' w'. unfold Convert, intsValue_Convert.
  destruct (strconv.Atoi v) as [i e] eqn:E. simpl. rewrite E.
  destruct e; intros Heq; inversion Heq; subst; simpl; by rewrite ?app_nil_r.
Qed.

Lemma stringsValue_appends : appends stringsValue string.
Proof.
  intros v this w ok this' w'. unfold Convert, stringsValue_Convert.
  intros Heq; inversion Heq; subst. done.
Qed.

Lemma filesValue_appends : appends filesValue string.
Proof.
  intros v this w ok this' w'. unfold Convert, filesValue_Convert.
  destruct (fileValue_Set v (newFileValue v true) w) as [[ok0 file] w0] eqn:E.
  destruct ok0; simpl; intros Heq; inversion Heq; subst; simpl.
  - by rewrite (fileValue_Set_name _ _ _ _ _ E).
  - by rewrite app_nil_r.
Qed.

(** C3: [Set] splits the token on [","] and calls the converter on the
    parts from left to right.  The calls the converter sees ([calls],
    recorded by [traced]) are all the parts when [Set] succeeds; when a part
    fails, they are the parts up to and including that first failing part,
    none of the later ones, and [Set] returns failure with the state that
    failing call left.  When [Set] succeeds and the converter appends, the
    accumulation has grown by the converted parts, in order. *)
Theorem ValueList_Set_short_circuit {T : Type} (C : Converter T)
    (value : string) (this : T) (w : os.World) :
  exists ok this' w' calls,
    @ValueList_Set T C value this w = (ok, this', w') /\
    @ValueList_Set _ (traced C) value (this, []) w = (ok, (this', calls), w') /\
    ((ok = true /\ calls = strings.Split value "," /\
      forall E (A : Accumulation T E),
        @appends T E C A ->
        elements this' = elements this ++ map converted (strings.Split value ","))
     \/
     (ok = false /\
      exists pre bad post this1 w1,
        strings.Split value "," = pre ++ bad :: post /\
        calls = pre ++ [bad] /\
        @Set_range T C pre this w = (true, this1, w1) /\
        C bad this1 w1 = (false, this', w'))).
Proof.
  unfold ValueList_Set.
  destruct (Set_range_calls C (strings.Split value ",") this [] w)
    as (ok & this' & w' & calls & H1 & H2 & H3).
  exists ok, this', w', calls. split; [exact H1|]. split; [exact H2|].
  destruct H3 as [[-> ->]|(-> & Hfail)].
  - left. repeat split. intros E A Happ.
    exact (@Set_range_elements T E C A Happ _ _ _ _ _ H1).
  - right. split; [done|]. exact Hfail.
Qed.

Example ValueList_Set_stops_at_x :
  @ValueList_Set _ (traced intsValue_Convert) "1,x,3"
     (mkIntsValue (makeValueList "") [], []) sample_world
  = (false, (mkIntsValue (makeValueList "") [1], ["1"; "x"]), sample_world).
Proof. vm_compute. reflexivity. Qed.

Example ValueList_Set_abc :
  fst (fst (ValueList_Set "a,b,c" (mkStringsValue (makeValueList "") []) sample_world))
  = true /\
  strings_ (snd (fst (ValueList_Set "a,b,c"
                        (mkStringsValue (makeValueList "") []) sample_world)))
  = ["a"; "b"; "c"].
Proof. split; vm_compute; reflexivity. Qed.

(** C2, as stated, fails: two successful [Set] calls on an integer list,
    ["1,2"] and then ["3"], leave [1; 2; 3] accumulated, not [3]. *)
Lemma last_Set_only_fails : ~ last_Set_only intsValue Z.
Proof.
  intros Hlast.
  pose (v0 := mkIntsValue (makeValueList "") []).
  pose (v1 := mkIntsValue (makeValueList "") [1; 2]).
  pose (v2 := mkIntsValue (makeValueList "") [1; 2; 3]).
  assert (Hbad : elements v2 = map converted (strings.Split "3" ",")).
  { apply (Hlast ["1,2"] "3" v0 sample_world v1 sample_world v2 sample_world).
    - reflexivity.
    - vm_compute. reflexivity.
    - vm_compute. reflexivity. }
  vm_compute in Hbad. discriminate Hbad.
Qed.

(** C2, amended: after any sequence of [Set] calls, a successful [Set]
    leaves the elements accumulated before it followed by the conversions,
    in order, of the comma-separated parts of its token; they are exactly
    those conversions when nothing was accumulated before the call. *)
Theorem Set_extends_accumulation {T E : Type} `{Converter T} `{Accumulation T E} :
  appends T E ->
  forall tokens token this w this1 w1 this2 w2,
    Set_calls tokens this w = (this1, w1) ->
    ValueList_Set token this1 w1 = (true, this2, w2) ->
    elements this2 = elements this1 ++ map converted (strings.Split token ",") /\
    (elements this1 = [] ->
     elements this2 = map converted (strings.Split token ",")).
Proof.
  intros Happ tokens token this w this1 w1 this2 w2 _ Hset.
  unfold ValueList_Set in Hset.
  pose proof (Set_range_elements Happ _ _ _ _ _ Hset) as Hel.
  split; [exact Hel|]. intros Hnil. by rewrite Hel, Hnil.
Qed.

Lemma Set_extends_accumulation_witness :
  elements (mkIntsValue (makeValueList "") [1; 2; 3])
  = elements (mkIntsValue (makeValueList "") [1; 2])
    ++ map converted (strings.Split "3" ",") /\
  (elements (mkIntsValue (makeValueList "") [1; 2]) = [] ->
   elements (mkIntsValue (makeValueList "") [1; 2; 3])
   = map converted (strings.Split "3" ",")).
Proof.
  apply (Set_extends_accumulation intsValue_appends ["1,2"] "3"
           (mkIntsValue (makeValueList "") []) sample_world
           (mkIntsValue (makeValueList "") [1; 2]) sample_world
           (mkIntsValue (makeValueList "") [1; 2; 3]) sample_world).
  - vm_compute. reflexivity.
  - vm_compute. reflexivity.
Defined.

(** The same at the level of the registry: a successful [Set] on the list
    value of a flag appends the conversions of the parts of its token. *)
Lemma Value_Set_extends (v : flag.Value) (token : string) (st : State) :
  isListValue v = true ->
  forall v' st',
    flag.Value_Set v token st = Ok (true, v', st') ->
    Value_elements v'
    = Value_elements v ++ map (Value_converted v) (strings.Split token ",").
Proof.
  intros Hlist v' st' Hset. destruct v as [| |p|l|l|l]; try discriminate Hlist;
    simpl in Hset;
    destruct (ValueList_Set token l (world st)) as [[ok l'] w'] eqn:E;
    inversion Hset; subst; simpl.
  - pose proof (Set_range_elements filesValue_appends _ _ _ _ _ E) as Hel.
    simpl in Hel. by rewrite Hel, map_app, map_map.
  - pose proof (Set_range_elements intsValue_appends _ _ _ _ _ E) as Hel.
    simpl in Hel. by rewrite Hel, map_app, map_map.
  - pose proof (Set_range_elements stringsValue_appends _ _ _ _ _ E) as Hel.
    simpl in Hel. by rewrite Hel, map_app, map_map.
Qed.

(* ===================================================================== *)
(** ** File handle values *)
(* ===================================================================== *)

(** What [Set] does on the empty token. *)
Lemma fileValue_Set_empty (this : fileValue) (w : os.World) :
  fileValue_Set "" this w = (false, this, w).
Proof. reflexivity. Qed.

(** What [Set] does on a path that cannot be opened or created: it fails,
    binds nothing, keeps the name, and has cleared the [std] marking. *)
Lemma fileValue_Set_unopenable (name : string) (this : fileValue) (w : os.World) :
  name <> "" -> name <> "stdin" -> name <> "stdout" ->
  (if fv_in this then os.readable w name else os.creatable w name) = false ->
  fileValue_Set name this w
  = (false, mkFileValue (fv_f this) (fv_name this) (fv_in this) false, w).
Proof.
  intros Hne Hin Hout Hno. unfold fileValue_Set.
  destruct name as [|c name]; [done|]. simpl String.length. simpl Nat.eqb.
  destruct (String.eqb_spec (String c name) "stdin") as [Heq|_];
    [by destruct (Hin Heq)|].
  destruct (String.eqb_spec (String c name) "stdout") as [Heq|_];
    [by destruct (Hout Heq)|].
  simpl. unfold os.Open, os.Create.
  destruct (fv_in this); rewrite Hno; reflexivity.
Qed.

(** C5: [Set] fails on the empty token and on a path, other than the two
    stream names, that cannot be opened (input) or created (output); the
    failing call binds no handle: the handle field is what it was before,
    so it remains nil when it was nil. *)
Theorem fileValue_Set_failure (name : string) (this : fileValue) (w : os.World) :
  name = "" \/
  (name <> "stdin" /\ name <> "stdout" /\
   (if fv_in this then os.readable w name else os.creatable w name) = false) ->
  exists this' w',
    fileValue_Set name this w = (false, this', w') /\
    fv_f this' = fv_f this /\
    (fv_f this = None -> fv_f this' = None).
Proof.
  intros [->|(Hin & Hout & Hno)].
  - exists this, w. rewrite fileValue_Set_empty. auto.
  - destruct (String.eqb_spec name "") as [->|Hne].
    + exists this, w. rewrite fileValue_Set_empty. auto.
    + eexists _, _. rewrite (fileValue_Set_unopenable _ _ _ Hne Hin Hout Hno).
      simpl. auto.
Qed.

Lemma fileValue_Set_failure_witness :
  exists this' w',
    fileValue_Set "missing.txt" (newFileValue "" true) sample_world
    = (false, this', w') /\
    fv_f this' = fv_f (newFileValue "" true) /\
    (fv_f (newFileValue "" true) = None -> fv_f this' = None).
Proof.
  apply (fileValue_Set_failure "missing.txt" (newFileValue "" true) sample_world).
  right. split; [discriminate|]. split; [discriminate|]. reflexivity.
Defined.

(** A failed [Set] never changes the handle or the name. *)
Lemma fileValue_Set_failed_keeps (name : string) (this : fileValue) (w : os.World) :
  forall this' w',
    fileValue_Set name this w = (false, this', w') ->
    fv_f this' = fv_f this /\ fv_name this' = fv_name this /\
    fv_in this' = fv_in this.
Proof.
  intros this' w'. unfold fileValue_Set.
  repeat case_match; intros Heq; inversion Heq; subst; done.
Qed.

Lemma fileValue_Set_failed_keeps_witness :
  fv_f (mkFileValue (Some os.Stdin) "stdin" true false) = Some os.Stdin /\
  fv_name (mkFileValue (Some os.Stdin) "stdin" true false) = "stdin" /\
  fv_in (mkFileValue (Some os.Stdin) "stdin" true false) = true.
Proof.
  apply (fileValue_Set_failed_keeps "missing.txt"
           (mkFileValue (Some os.Stdin) "stdin" true true) sample_world
           (mkFileValue (Some os.Stdin) "stdin" true false) sample_world).
  reflexivity.
Defined.

(** C10 at its failing input: a new value is marked [std]; a [Set] that
    fails because the path cannot be opened returns it with the marking
    cleared. *)
Theorem fileValue_Set_failure_clears_std :
  let this := newFileValue "" true in
  let '(ok, this', _) := fileValue_Set "missing.txt" this sample_world in
  ok = false /\ fv_std this = true /\ fv_std this' = false /\ this' <> this.
Proof. vm_compute. repeat split. discriminate. Qed.

(** [Close] on a value marked [std] closes nothing. *)
Lemma fileValue_Close_std (this : fileValue) (w : os.World) :
  fv_std this = true -> fileValue_Close this w = w.
Proof. intros Hstd. unfold fileValue_Close. by rewrite Hstd. Qed.

(** The teardown of the facade closes nothing when every tracked value is
    marked [std]. *)
Lemma Close_range_std (files : list nat) (st : State) :
  Forall (fun p => exists f, heap st !! p = Some f /\ fv_std f = true) files ->
  Close_range files st = Ok st.
Proof.
  induction 1 as [|p files (f & Hp & Hstd) _ IH]; simpl; [done|].
  rewrite Hp, (fileValue_Close_std _ _ Hstd). destruct st; exact IH.
Qed.

Lemma Close_range_std_witness :
  Close_range [0%nat]
    (mkState [mkFileValue (Some os.Stdin) "stdin" true true] sample_world)
  = Ok (mkState [mkFileValue (Some os.Stdin) "stdin" true true] sample_world).
Proof.
  apply (Close_range_std [0%nat]
           (mkState [mkFileValue (Some os.Stdin) "stdin" true true] sample_world)).
  constructor; [|constructor].
  exists (mkFileValue (Some os.Stdin) "stdin" true true). split; reflexivity.
Defined.

(** On a value that is still marked [std], [Set] with a stream name binds
    the stream and keeps the marking. *)
Lemma fileValue_Set_stream (name : string) (this : fileValue) (w : os.World) :
  name = "stdin" \/ name = "stdout" ->
  exists h,
    fileValue_Set name this w
    = (true, mkFileValue (Some h) name (fv_in this) (fv_std this), w).
Proof. intros [->| ->]; eexists; reflexivity. Qed.

(** Where the [std] marking comes from: [Set] only ever clears it. *)
Lemma fileValue_Set_std_monotone (name : string) (this : fileValue) (w : os.World) :
  forall ok this' w',
    fileValue_Set name this w = (ok, this', w') ->
    fv_std this' = true -> fv_std this = true.
Proof.
  intros ok this' w'. unfold fileValue_Set.
  repeat case_match; intros Heq; inversion Heq; subst; done.
Qed.

Example input_registry_heap :
  heap (snd input_registry) = [mkFileValue None "stdin" true true] /\
  Files (fst input_registry) = [0%nat].
Proof. split; reflexivity. Qed.

(** The expected life of a stream: [-i stdin] binds standard input, and the
    teardown closes nothing. *)
Example Close_leaves_stdin :
  let '(fx, st) := input_registry in
  match Parse fx ["-i"; "stdin"] false st with
  | Ok (fx1, st1) =>
      heap st1 = [mkFileValue (Some os.Stdin) "stdin" true true] /\
      match Close fx1 st1 with
      | Ok st2 => os.closed (world st2) = []
      | _ => False
      end
  | _ => False
  end.
Proof. vm_compute. split; reflexivity. Qed.

(** C6 at its failing input: [-i a.txt -i stdin] first opens [a.txt], which
    clears the [std] marking, then binds standard input without marking it
    again; the teardown of the facade then closes standard input. *)
Theorem Close_closes_rebound_stdin :
  let '(fx, st) := input_registry in
  match Parse fx ["-i"; "a.txt"; "-i"; "stdin"] false st with
  | Ok (fx1, st1) =>
      heap st1 = [mkFileValue (Some os.Stdin) "stdin" true false] /\
      match Close fx1 st1 with
      | Ok st2 => os.closed (world st2) = [os.Stdin]
      | _ => False
      end
  | _ => False
  end.
Proof. vm_compute. split; reflexivity. Qed.

(** The same on the value alone. *)
Example fileValue_rebound_stdin :
  let v0 := newFileValue "stdin" true in
  let '(ok1, v1, w1) := fileValue_Set "a.txt" v0 sample_world in
  let '(ok2, v2, w2) := fileValue_Set "stdin" v1 w1 in
  ok1 = true /\ ok2 = true /\ fv_f v2 = Some os.Stdin /\ fv_std v2 = false /\
  os.closed (fileValue_Close v2 w2) = [os.Stdin].
Proof. vm_compute. repeat split. Qed.

(* ===================================================================== *)
(** ** The glob expander *)
(* ===================================================================== *)

Lemma IndexAny_wildcard (a : string) :
  (strings.IndexAny a "*?" >? -1) = contains_wildcard a.
Proof.
  unfold strings.IndexAny.
  assert (H : forall a, match strings.index_any_from a "*?" with
                        | Some _ => true | None => false end
                        = contains_wildcard a).
  { clear a. induction a as [|c a IH]; simpl; [done|].
    rewrite orb_false_r.
    destruct (Ascii.eqb c "*" || Ascii.eqb c "?"); simpl; [done|].
    rewrite <- IH. by destruct (strings.index_any_from a "*?"). }
  rewrite <- H. destruct (strings.index_any_from a "*?"); [|done].
  apply Z.gtb_lt. lia.
Qed.

Lemma glob_step_fold (w : os.World) (cmdline : list string) :
  forall xcmds,
    fold_left (glob_step w) cmdline xcmds
    = xcmds ++ flat_map (fun a => if contains_wildcard a
                                 then filepath.Glob a w else [a]) cmdline.
Proof.
  induction cmdline as [|a cmdline IH]; intros xcmds; simpl.
  - by rewrite app_nil_r.
  - rewrite IH. unfold glob_step. rewrite IndexAny_wildcard.
    destruct (contains_wildcard a); by rewrite <- app_assoc.
Qed.

(** C4: the expander replaces every token that contains ['*'] or ['?'] by
    the list [filepath.Glob] returns for it (the sorted matching paths) and
    passes every other token through, in place.  Hence a sequence without
    wildcard tokens comes back unchanged, and a wildcard token that matches
    nothing disappears; no error can be raised, [glob] being total. *)
Theorem glob_expands (w : os.World) (cmdline : list string) :
  glob cmdline w
  = flat_map (fun a => if contains_wildcard a
                       then filepath.Glob a w else [a]) cmdline /\
  (Forall (fun a => contains_wildcard a = false) cmdline ->
   glob cmdline w = cmdline) /\
  (forall pre a post,
     cmdline = pre ++ a :: post ->
     contains_wildcard a = true -> filepath.Glob a w = [] ->
     glob cmdline w = glob (pre ++ post) w).
Proof.
  unfold glob. rewrite !glob_step_fold. simpl. split; [done|]. split.
  - induction 1 as [|a l Ha _ IH]; simpl; [done|]. by rewrite Ha, IH.
  - intros pre a post -> Ha Hnone. rewrite glob_step_fold. simpl.
    rewrite !flat_map_app. simpl. by rewrite Ha, Hnone.
Qed.

Lemma glob_expands_witness :
  glob ["x"; "*.go"; "y?"; "z"] sample_world = ["x"; "a.go"; "b.go"; "z"] /\
  glob ["x"; "z"] sample_world = ["x"; "z"] /\
  glob ["x"; "y?"; "z"] sample_world = glob ["x"; "z"] sample_world.
Proof.
  split; [vm_compute; reflexivity|]. split.
  - apply (glob_expands sample_world ["x"; "z"]).
    repeat constructor.
  - apply (proj2 (proj2 (glob_expands sample_world ["x"; "y?"; "z"]))
             ["x"] "y?" ["z"]); reflexivity.
Defined.

(* ===================================================================== *)
(** ** The positional resolver *)
(* ===================================================================== *)

Lemma Atoi_range (s : string) (n : Z) :
  strconv.Atoi s = (n, None) -> strconv.minInt <= n <= strconv.maxInt.
Proof.
  unfold strconv.Atoi. destruct (strconv.Atoi64 s) as [i1 e1].
  destruct e1 as [[|]|]; try discriminate;
    destruct (i1 <? strconv.minInt) eqn:Hlo; try discriminate;
    destruct (i1 >? strconv.maxInt) eqn:Hhi; try discriminate;
    intros Heq; inversion Heq; subst;
    apply Z.ltb_ge in Hlo; rewrite Z.gtb_ltb in Hhi; apply Z.ltb_ge in Hhi; lia.
Qed.

Lemma wrap_in_range (z : Z) :
  strconv.minInt <= z <= strconv.maxInt -> strconv.wrap z = z.
Proof.
  unfold strconv.wrap, strconv.minInt, strconv.maxInt, strconv.IntSize.
  intros Hz. rewrite Z.mod_small; lia.
Qed.

Lemma index_at_nth (args : list string) (i : Z) :
  0 <= i < Z.of_nat (length args) ->
  index_at args i = Ok (nth (Z.to_nat i) args "").
Proof.
  intros Hi. unfold index_at.
  destruct (Z.leb_spec 0 i); [|lia].
  destruct (Z.ltb_spec i (Z.of_nat (length args))); [|lia]. simpl.
  destruct (nth_error args (Z.to_nat i)) eqn:E.
  - by rewrite (nth_error_nth _ _ _ E).
  - apply nth_error_None in E. lia.
Qed.

Lemma slice_from_drop (args : list string) (i : Z) :
  0 <= i <= Z.of_nat (length args) ->
  slice_from args i = Ok (drop (Z.to_nat i) args).
Proof.
  intros Hi. unfold slice_from.
  destruct (Z.leb_spec 0 i); [|lia].
  destruct (Z.leb_spec i (Z.of_nat (length args))); [|lia]. reflexivity.
Qed.

(** For [N >= 1] the value picked by the visitor is [ordinal_value]: every
    index it uses is inside the arguments. *)
Lemma positional_val_ordinal (fl : flag.Flag) (args : list string) (N : Z) :
  1 <= N ->
  positional_val fl args (N - 1) = Ok (ordinal_value fl args N).
Proof.
  intros HN. unfold positional_val, ordinal_value.
  destruct (Z.ltb_spec (N - 1) (Z.of_nat (length args))); [|done].
  destruct (isListValue (flag.Val fl)).
  - rewrite slice_from_drop by lia. reflexivity.
  - apply index_at_nth. lia.
Qed.

(** For [N <= 0] the index is negative: both accesses are out of range. *)
Lemma positional_val_negative (fl : flag.Flag) (args : list string) (idx : Z) :
  idx < 0 -> positional_val fl args idx = Panic IndexOutOfRange.
Proof.
  intros Hidx. unfold positional_val, index_at, slice_from.
  destruct (Z.ltb_spec idx (Z.of_nat (length args))); [|lia].
  destruct (Z.leb_spec 0 idx); [lia|]. simpl.
  by destruct (isListValue (flag.Val fl)).
Qed.

Lemma Value_Set_no_index_panic (v : flag.Value) (s : string) (st : State) :
  flag.Value_Set v s st <> Panic IndexOutOfRange.
Proof.
  destruct v; simpl; repeat case_match; discriminate.
Qed.

Lemma Parse_visit_ordinal (args : list string) (fl : flag.Flag)
    (suffix : string) (N : Z) (st : State) :
  flag.Name fl = String "#" suffix ->
  strconv.Atoi suffix = (N, None) ->
  Parse_visit args fl st
  = (val ← positional_val fl args (strconv.wrap (N - 1));
     Set_flag fl val (strconv.wrap (strconv.wrap (N - 1) + 1)) st).
Proof.
  intros Hname Hatoi. unfold Parse_visit, Set_flag.
  rewrite Hname. simpl. rewrite Hatoi. reflexivity.
Qed.

(** The visit of an ordinal flag [#N] with [N >= 1] is [Set] with
    [ordinal_value], reported under position [N] when it fails. *)
Lemma Parse_visit_Set_flag (args : list string) (fl : flag.Flag)
    (suffix : string) (N : Z) (sta : State) :
  flag.Name fl = String "#" suffix ->
  strconv.Atoi suffix = (N, None) -> 1 <= N ->
  Parse_visit args fl sta = Set_flag fl (ordinal_value fl args N) N sta.
Proof.
  intros Hname Hatoi HN.
  pose proof (Atoi_range _ _ Hatoi) as Hr.
  assert (Hr1 : strconv.minInt <= N - 1 <= strconv.maxInt).
  { revert Hr. unfold strconv.minInt, strconv.maxInt, strconv.IntSize. lia. }
  rewrite (Parse_visit_ordinal _ _ _ _ _ Hname Hatoi).
  rewrite (wrap_in_range _ Hr1), positional_val_ordinal by done. simpl.
  replace (N - 1 + 1) with N by lia. by rewrite (wrap_in_range _ Hr).
Qed.

(** [Parse] is: the optional expansion, the base parse, then one visit of
    every registered flag with the arguments the base parse left over. *)
Lemma Parse_visits (fx : FlagExtra) (cmdline : list string) (doGlob : bool)
    (st : State) :
  Parse fx cmdline doGlob st
  = ('(fs, st1) ← flag.Parse (FlagSet fx)
                    (if doGlob then glob cmdline (world st) else cmdline) st;
     '(flags, st2) ← flag.visit (Parse_visit (flag.args fs)) (flag.formal fs) st1;
     Ok (mkFlagExtra (flag.mkFlagSet flags (flag.args fs)) (Files fx), st2)).
Proof.
  unfold Parse, flag.VisitAll, flag.Args.
  destruct (flag.Parse _ _ st) as [[fs st1]| |]; simpl; [|done..].
  by destruct (flag.visit _ _ st1) as [[flags st2]| |].
Qed.

(** A completed visit has called the function once on every flag, in
    registry order, each call starting from the state the one before left. *)
Lemma visit_Forall2 (fn : flag.Flag -> State -> result (flag.Flag * State))
    (flags : list flag.Flag) :
  forall st flags' st',
    flag.visit fn flags st = Ok (flags', st') ->
    Forall2 (fun fl fl' => exists sta stb, fn fl sta = Ok (fl', stb)) flags flags'.
Proof.
  induction flags as [|fl flags IH]; intros st flags' st' Hv; simpl in Hv.
  - inversion Hv. constructor.
  - destruct (fn fl st) as [[fl1 st1]| |] eqn:E; simpl in Hv; try discriminate.
    destruct (flag.visit fn flags st1) as [[flags1 st2]| |] eqn:E2;
      simpl in Hv; try discriminate.
    inversion Hv; subst. constructor; eauto.
Qed.

(** C1, as stated, fails: with no positional argument, the list flag [#1]
    with default ["0"] is set with its default and holds [0]; set with the
    joined rest of the arguments, the empty string, the visit would end the
    process, the empty string being no integer. *)
Lemma sets_joined_value_fails : ~ sets_joined_value.
Proof.
  intros Hj.
  specialize (Hj [] ints_flag "1" 1 sample_state eq_refl eq_refl).
  assert (H1 : 1 <= 1) by lia. specialize (Hj H1).
  vm_compute in Hj. discriminate Hj.
Qed.

Example list_flag_without_arguments :
  Parse_visit [] ints_flag sample_state
  = Ok (flag.mkFlag "#1" "set of ints"
          (flag.VInts (mkIntsValue (makeValueList "0") [0])) "0", sample_state) /\
  Set_flag ints_flag (ordinal_value_joined ints_flag [] 1) 1 sample_state
  = Exit 1 (InvalidArgument "" 1).
Proof. split; vm_compute; reflexivity. Qed.

(** C1, amended: [Parse] visits every registered flag with the arguments
    left by the base parse; on a flag named [#] followed by text that
    [Atoi] reads as [N >= 1], the visit calls [Set] with [ordinal_value]:
    when [N-1 < len(args)], the arguments from [N-1] on joined by [","] for
    a list value and the argument at [N-1] for a scalar; when
    [N-1 >= len(args)], the declared default, for both kinds. *)
Theorem Parse_sets_ordinal_value (fx : FlagExtra) (cmdline : list string)
    (doGlob : bool) (st : State) :
  Parse fx cmdline doGlob st
  = ('(fs, st1) ← flag.Parse (FlagSet fx)
                    (if doGlob then glob cmdline (world st) else cmdline) st;
     '(flags, st2) ← flag.visit (Parse_visit (flag.args fs)) (flag.formal fs) st1;
     Ok (mkFlagExtra (flag.mkFlagSet flags (flag.args fs)) (Files fx), st2)) /\
  forall args fl suffix N sta,
    flag.Name fl = String "#" suffix ->
    strconv.Atoi suffix = (N, None) -> 1 <= N ->
    Parse_visit args fl sta = Set_flag fl (ordinal_value fl args N) N sta.
Proof.
  split; [apply Parse_visits|]. apply Parse_visit_Set_flag.
Qed.

Lemma Parse_sets_ordinal_value_witness :
  Parse_visit ["10"; "20"; "30"] name_flag sample_state
  = Set_flag name_flag "20" 2 sample_state /\
  Parse_visit ["10"; "20"; "30"] ints_flag sample_state
  = Set_flag ints_flag "10,20,30" 1 sample_state /\
  Parse_visit ["10"] name_flag sample_state
  = Set_flag name_flag "dolly" 2 sample_state.
Proof.
  split; [|split].
  - apply (proj2 (Parse_sets_ordinal_value NewFlag [] false sample_state)
             ["10"; "20"; "30"] name_flag "2" 2 sample_state);
      [reflexivity | reflexivity | lia].
  - apply (proj2 (Parse_sets_ordinal_value NewFlag [] false sample_state)
             ["10"; "20"; "30"] ints_flag "1" 1 sample_state);
      [reflexivity | reflexivity | lia].
  - apply (proj2 (Parse_sets_ordinal_value NewFlag [] false sample_state)
             ["10"] name_flag "2" 2 sample_state);
      [reflexivity | reflexivity | lia].
Defined.



(** The flag [#0] passes the [Atoi] check and panics on the access; with
    the least [int] the decrement wraps and the default is taken. *)
Example Parse_visit_zero :
  Parse_visit ["10"]
    (flag.mkFlag "#0" "" (flag.VString "dolly") "dolly") sample_state
  = Panic IndexOutOfRange /\
  Parse_visit ["10"]
    (flag.mkFlag "#-2147483648" "" (flag.VString "dolly") "dolly") sample_state
  = Ok (flag.mkFlag "#-2147483648" "" (flag.VString "dolly") "dolly",
        sample_state).
Proof. split; vm_compute; reflexivity. Qed.

(* ===================================================================== *)
(** ** The configuration-file tokenizer *)
(* ===================================================================== *)

Lemma append_String (a : string) (c : ascii) (b : string) :
  ((a ++ String c "") ++ b)%string = (a ++ String c b)%string.
Proof. induction a as [|d a IH]; simpl; [done|]. by rewrite IH. Qed.

Lemma append_empty (a : string) : (a ++ "")%string = a.
Proof. induction a as [|d a IH]; simpl; [done|]. by rewrite IH. Qed.

Lemma index_from_byte (s : string) (c : ascii) :
  strings.index_from s (String c "") = None <-> strings.mem c s = false.
Proof.
  induction s as [|d s IH]; simpl; [done|].
  rewrite (Ascii.eqb_sym c d).
  assert (Hp : strings.HasPrefix s "" = true) by (by destruct s).
  rewrite Hp, andb_true_r. destruct (Ascii.eqb d c); simpl; [done|].
  rewrite <- IH. by destruct (strings.index_from s (String c "")).
Qed.

Lemma Index_byte_absent (s : string) (c : ascii) :
  strings.Index s (String c "") = -1 <-> strings.mem c s = false.
Proof.
  rewrite <- index_from_byte. unfold strings.Index.
  destruct (strings.index_from s (String c "")); split; try done; lia.
Qed.

Lemma truncate_strip_comment (line : string) :
  (let idx := strings.Index line "#" in
   if idx >? -1 then strings.slice_to line idx else line) = strip_comment line.
Proof.
  unfold strings.Index, strings.slice_to.
  induction line as [|c line IH]; simpl; [done|].
  assert (Hp : strings.HasPrefix line "" = true) by (by destruct line).
  rewrite Hp, andb_true_r. destruct (Ascii.eqb c "#"); simpl; [done|].
  destruct (strings.index_from line "#") as [n|] eqn:E; simpl in *.
  - assert (Hn : (Z.of_nat n >? -1) = true) by (apply Z.gtb_lt; lia).
    rewrite Hn in IH.
    rewrite Nat2Z.id in *. by rewrite IH.
  - by rewrite <- IH.
Qed.

Lemma config_step_token (out : list string) (line : string) :
  config_step out line = out ++ line_token line.
Proof.
  unfold config_step, line_token. rewrite truncate_strip_comment.
  destruct (strings.TrimSpace (strip_comment line)) as [|c l]; simpl.
  - by rewrite app_nil_r.
  - done.
Qed.

Lemma config_step_fold (lines : list string) :
  forall out, fold_left config_step lines out = out ++ flat_map line_token lines.
Proof.
  induction lines as [|line lines IH]; intros out; simpl.
  - by rewrite app_nil_r.
  - by rewrite IH, config_step_token, <- app_assoc.
Qed.

Lemma config_tokens_lines (bytes : string) :
  config_tokens bytes
  = flat_map line_token (strings.Split (strings.ReplaceAll bytes CRLF LF) LF).
Proof. unfold config_tokens. by rewrite config_step_fold. Qed.

Lemma mem_String (c d : ascii) (s : string) :
  strings.mem c (String d s) = Ascii.eqb c d || strings.mem c s.
Proof. reflexivity. Qed.

Lemma strip_comment_absent (line : string) :
  strings.mem "#" line = false -> strip_comment line = line.
Proof.
  induction line as [|c line IH]; [done|].
  rewrite mem_String. intros H. apply orb_false_elim in H as [Hc Hs].
  rewrite Ascii.eqb_sym in Hc.
  change (strip_comment (String c line))
    with (if Ascii.eqb c "#" then "" else String c (strip_comment line)).
  by rewrite Hc, (IH Hs).
Qed.

Lemma HasPrefix_CRLF (c : ascii) (s : string) :
  strings.mem "010" s = false -> strings.HasPrefix (String c s) CRLF = false.
Proof.
  destruct s as [|c1 s1]; intros Hs.
  - apply andb_false_r.
  - rewrite mem_String in Hs. apply orb_false_elim in Hs as [Hc1 _].
    rewrite Ascii.eqb_sym in Hc1.
    change (strings.HasPrefix (String c (String c1 s1)) CRLF)
      with (Ascii.eqb c "013" && (Ascii.eqb c1 "010" && strings.HasPrefix s1 "")).
    rewrite Hc1. apply andb_false_r.
Qed.

Lemma ReplaceAll_no_newline (s : string) :
  strings.mem "010" s = false -> strings.ReplaceAll s CRLF LF = s.
Proof.
  unfold strings.ReplaceAll.
  induction s as [|c s IH]; [done|].
  rewrite mem_String. intros H. apply orb_false_elim in H as [Hc Hs].
  change (strings.replace_scan CRLF LF 0 (String c s))
    with (if strings.HasPrefix (String c s) CRLF
          then (LF ++ strings.replace_scan CRLF LF
                        (String.length CRLF - 1) s)%string
          else String c (strings.replace_scan CRLF LF 0 s)).
  by rewrite (HasPrefix_CRLF _ _ Hs), (IH Hs).
Qed.

Lemma split_scan_no_sep (c : ascii) (s : string) :
  strings.mem c s = false ->
  forall cur, strings.split_scan (String c "") 0 cur s = [(cur ++ s)%string].
Proof.
  induction s as [|d s IH]; simpl; intros H cur.
  - by rewrite append_empty.
  - apply orb_false_elim in H as [Hd Hs].
    rewrite (Ascii.eqb_sym d c), Hd. simpl.
    by rewrite (IH Hs), append_String.
Qed.

Lemma Split_no_newline (s : string) :
  strings.mem "010" s = false -> strings.Split s LF = [s].
Proof. intros H. unfold strings.Split. by rewrite (split_scan_no_sep _ _ H). Qed.

Lemma index_from_String (c : ascii) (s sep : string) :
  strings.index_from (String c s) sep
  = if strings.HasPrefix (String c s) sep then Some 0%nat
    else option_map S (strings.index_from s sep).
Proof. reflexivity. Qed.

Lemma Contains_assignment (name value : string) :
  strings.Contains (name ++ "=" ++ value) "=" = true.
Proof.
  unfold strings.Contains, strings.Index.
  assert (H : exists n, strings.index_from (name ++ "=" ++ value) "=" = Some n).
  { induction name as [|c name IH].
    - exists 0%nat. simpl.
      assert (Hp : strings.HasPrefix value "" = true) by (by destruct value).
      by rewrite Hp.
    - destruct IH as [n IH].
      change ((String c name ++ "=" ++ value)%string)
        with (String c (name ++ "=" ++ value)%string).
      rewrite index_from_String, IH.
      destruct (strings.HasPrefix _ "="); simpl; eauto. }
  destruct H as [n ->]. apply Z.geb_le. lia.
Qed.

Lemma visit_named (args : list string) (flags : list flag.Flag) :
  Forall (fun fl => named fl = true) flags ->
  forall st, flag.visit (Parse_visit args) flags st = Ok (flags, st).
Proof.
  induction 1 as [|fl flags Hfl _ IH]; intros st; [done|].
  assert (Hv : Parse_visit args fl st = Ok (fl, st)).
  { unfold Parse_visit. unfold named in Hfl.
    destruct (flag.Name fl) as [|c suffix]; [done|].
    apply negb_true_iff in Hfl. by rewrite Hfl. }
  cbn [flag.visit]. rewrite Hv. simpl. by rewrite IH.
Qed.

Lemma glob_no_wildcard (cmdline : list string) (w : os.World) :
  Forall (fun a => contains_wildcard a = false) cmdline ->
  glob cmdline w = cmdline.
Proof.
  intros H. unfold glob. rewrite glob_step_fold. simpl.
  induction H as [|a l Ha _ IH]; simpl; [done|]. by rewrite Ha, IH.
Qed.

(** With no token, [Parse] is the visit of the registry with no positional
    argument. *)
Lemma Parse_no_tokens (fx : FlagExtra) (doGlob : bool) (st : State) :
  Parse fx [] doGlob st
  = ('(flags, st2) ← flag.visit (Parse_visit []) (flag.formal (FlagSet fx)) st;
     Ok (mkFlagExtra (flag.mkFlagSet flags []) (Files fx), st2)).
Proof. rewrite Parse_visits. by destruct doGlob. Qed.



Example ParseConfig_animal :
  config_tokens ("# comment line is ignored" ++ String "010" "name=bonzo dog"
                 ++ String "013" (String "010" "age=12  # age of animal")
                 ++ String "010" "owners=Alice,John" ++ String "010" "")
  = ["-name=bonzo dog"; "-age=12"; "-owners=Alice,John"] /\
  bound "name" (ParseConfig (fst animal_registry) "animal.conf" (snd animal_registry))
  = Some (flag.VString "bonzo dog") /\
  bound "age" (ParseConfig (fst animal_registry) "animal.conf" (snd animal_registry))
  = Some (flag.VInt 12) /\
  bound "owners" (ParseConfig (fst animal_registry) "animal.conf" (snd animal_registry))
  = Some (flag.VStrings (mkStringsValue (makeValueList "self") ["Alice"; "John"])).
Proof. repeat split; vm_compute; reflexivity. Qed.


Example config_line_with_hash :
  config_tokens "name=a#b" = ["-name=a"] /\
  bound "name" (ParseConfig (fst animal_registry) "hash.conf" (snd animal_registry))
  = Some (flag.VString "a") /\
  bound "name" (Parse (fst animal_registry) ["-name=a#b"] true (snd animal_registry))
  = Some (flag.VString "a#b") /\
  bound "name" (Parse (fst animal_registry) ["-name=a#b"] false (snd animal_registry))
  = Some (flag.VString "a#b").
Proof. repeat split; vm_compute; reflexivity. Qed.

Lemma line_token_clean (line : string) :
  strings.Index line "#" = -1 ->
  strings.TrimSpace line = line ->
  line <> "" ->
  line_token line
  = [if strings.Contains line "=" then ("-" ++ line)%string else line].
Proof.
  intros Hhash Htrim Hne. unfold line_token.
  apply Index_byte_absent in Hhash.
  rewrite (strip_comment_absent _ Hhash), Htrim.
  by destruct line.
Qed.



Example ParseConfig_plain_binds :
  bound "name" (ParseConfig (fst animal_registry) "plain.conf" (snd animal_registry))
  = Some (flag.VString "bonzo dog").
Proof. vm_compute. reflexivity. Qed.

(* ===================================================================== *)
(** ** Teardown and the life of a handle *)
(* ===================================================================== *)

Lemma set_closed_same (w : os.World) : set_closed (os.closed w) w = w.
Proof. by destruct w. Qed.

Lemma fileValue_Close_closing (f : fileValue) (w : os.World) :
  fileValue_Close f w
  = set_closed ((if fv_std f then []
                 else match fv_f f with Some h => [h] | None => [] end)
                ++ os.closed w) w.
Proof.
  unfold fileValue_Close. destruct (fv_std f); simpl.
  - by rewrite set_closed_same.
  - by destruct (fv_f f); simpl; [|rewrite set_closed_same].
Qed.

Lemma Close_range_cons (p : nat) (files : list nat) (st : State) :
  Close_range (p :: files) st
  = match heap st !! p with
    | None => Panic NilDereference
    | Some f =>
        Close_range files (mkState (heap st) (fileValue_Close f (world st)))
    end.
Proof. reflexivity. Qed.

Lemma closing_cons (hp : list fileValue) (p : nat) (files : list nat) (f : fileValue) :
  hp !! p = Some f ->
  closing hp (p :: files)
  = (if fv_std f then []
     else match fv_f f with Some h => [h] | None => [] end) ++ closing hp files.
Proof. intros Hp. unfold closing. cbn [flat_map]. by rewrite Hp. Qed.

Lemma Close_range_closing (files : list nat) :
  forall hp w,
    Forall (fun p => is_Some (hp !! p)) files ->
    Close_range files (mkState hp w)
    = Ok (mkState hp (set_closed (rev (closing hp files) ++ os.closed w) w)).
Proof.
  induction files as [|p files IH]; intros hp w Hall.
  - simpl. by rewrite set_closed_same.
  - inversion Hall as [|? ? [f Hp] Hrest]; subst.
    rewrite Close_range_cons. cbn [heap world]. rewrite Hp.
    rewrite fileValue_Close_closing, (IH _ _ Hrest), (closing_cons _ _ _ _ Hp).
    unfold set_closed. cbn [os.readable os.creatable os.matches os.contents
                            os.next_fd os.closed].
    destruct (fv_std f); [|destruct (fv_f f)]; simpl;
      by rewrite <- ?app_assoc.
Qed.

(** X3: the teardown hands to [File.Close] exactly the handles that the
    tracked values not marked [std] hold at that moment, in the order of
    [fx.Files], and changes nothing else: the values keep their handle,
    and the rest of the operating system is as before. *)
Theorem Close_closes_bound_handles (fx : FlagExtra) (st : State) :
  Forall (fun p => is_Some (heap st !! p)) (Files fx) ->
  Close fx st
  = Ok (mkState (heap st)
          (set_closed (rev (closing (heap st) (Files fx))
                       ++ os.closed (world st)) (world st))).
Proof.
  intros Hall. unfold Close. destruct st as [hp w]. simpl in *.
  by apply Close_range_closing.
Qed.

Lemma Close_closes_bound_handles_witness :
  Close (mkFlagExtra flag.NewFlagSet [0%nat; 1%nat])
    (mkState [mkFileValue (Some (os.Handle 3 "a.txt")) "a.txt" true false;
              mkFileValue (Some os.Stdout) "stdout" false true] sample_world)
  = Ok (mkState [mkFileValue (Some (os.Handle 3 "a.txt")) "a.txt" true false;
                 mkFileValue (Some os.Stdout) "stdout" false true]
          (set_closed [os.Handle 3 "a.txt"] sample_world)).
Proof.
  apply (Close_closes_bound_handles
           (mkFlagExtra flag.NewFlagSet [0%nat; 1%nat])
           (mkState [mkFileValue (Some (os.Handle 3 "a.txt")) "a.txt" true false;
                     mkFileValue (Some os.Stdout) "stdout" false true]
                    sample_world)).
  repeat constructor; eexists; reflexivity.
Defined.

(** X4: [Close] does not reset the handle of a value, so a second teardown
    hands the same handles to [File.Close] once more. *)
Theorem Close_twice_closes_twice (fx : FlagExtra) (st : State) :
  Forall (fun p => is_Some (heap st !! p)) (Files fx) ->
  (st1 ← Close fx st; Close fx st1)
  = Ok (mkState (heap st)
          (set_closed (rev (closing (heap st) (Files fx))
                       ++ rev (closing (heap st) (Files fx))
                       ++ os.closed (world st)) (world st))).
Proof.
  intros Hall. unfold Close. destruct st as [hp w]. simpl in *.
  rewrite (Close_range_closing _ _ _ Hall). simpl.
  by rewrite (Close_range_closing _ _ _ Hall).
Qed.

Lemma Close_twice_closes_twice_witness :
  (st1 ← Close (mkFlagExtra flag.NewFlagSet [0%nat])
           (mkState [mkFileValue (Some (os.Handle 3 "a.txt")) "a.txt" true false]
                    sample_world);
   Close (mkFlagExtra flag.NewFlagSet [0%nat]) st1)
  = Ok (mkState [mkFileValue (Some (os.Handle 3 "a.txt")) "a.txt" true false]
          (set_closed [os.Handle 3 "a.txt"; os.Handle 3 "a.txt"] sample_world)).
Proof.
  apply (Close_twice_closes_twice (mkFlagExtra flag.NewFlagSet [0%nat])
           (mkState [mkFileValue (Some (os.Handle 3 "a.txt")) "a.txt" true false]
                    sample_world)).
  repeat constructor; eexists; reflexivity.
Defined.

(** X5: a successful [Set] always binds a handle and makes [String]
    return the token.  For the two stream names it binds the stream,
    whatever the mode of the value, touches neither the marking nor the
    operating system; for any other token it binds the handle just opened
    or created and clears the marking. *)
Theorem fileValue_Set_success (name : string) (this : fileValue) (w : os.World) :
  forall this' w',
    fileValue_Set name this w = (true, this', w') ->
    fileValue_String this' = name /\ fv_in this' = fv_in this /\
    ((name = "stdin" /\ fv_f this' = Some os.Stdin /\
      fv_std this' = fv_std this /\ w' = w) \/
     (name = "stdout" /\ fv_f this' = Some os.Stdout /\
      fv_std this' = fv_std this /\ w' = w) \/
     (name <> "stdin" /\ name <> "stdout" /\
      fv_f this' = Some (os.Handle (os.next_fd w) name) /\
      fv_std this' = false /\
      os.next_fd w' = S (os.next_fd w) /\ os.closed w' = os.closed w)).
Proof.
  intros this' w'. unfold fileValue_Set, fileValue_String.
  destruct (String.length name =? 0)%nat; [discriminate|].
  destruct (String.eqb_spec name "stdin") as [->|Hin].
  { intros Heq; inversion Heq; subst; simpl. auto 10. }
  destruct (String.eqb_spec name "stdout") as [->|Hout].
  { intros Heq; inversion Heq; subst; simpl. auto 10. }
  simpl. unfold os.Open, os.Create, os.fresh_handle.
  destruct (fv_in this);
    [destruct (os.readable w name) | destruct (os.creatable w name)];
    intros Heq; inversion Heq; subst; simpl; auto 15.
Qed.

Lemma fileValue_Set_success_witness :
  fileValue_String (mkFileValue (Some (os.Handle 3 "a.txt")) "a.txt" true false)
  = "a.txt" /\
  fv_in (mkFileValue (Some (os.Handle 3 "a.txt")) "a.txt" true false)
  = fv_in (newFileValue "" true).
Proof.
  pose proof (fileValue_Set_success "a.txt" (newFileValue "" true) sample_world
                (mkFileValue (Some (os.Handle 3 "a.txt")) "a.txt" true false)
                (os.mkWorld (os.readable sample_world) (os.creatable sample_world)
                            (os.matches sample_world) (os.contents sample_world)
                            4 [])
                eq_refl) as H.
  exact (conj (proj1 H) (proj1 (proj2 H))).
Defined.

(* ===================================================================== *)
(** ** More on list values *)
(* ===================================================================== *)

Lemma handles_app (paths1 paths2 : list string) :
  forall n,
    handles n (paths1 ++ paths2)
    = handles n paths1 ++ handles (n + length paths1) paths2.
Proof.
  induction paths1 as [|p paths1 IH]; intros n; simpl.
  - by rewrite Nat.add_0_r.
  - rewrite IH. by replace (S n + length paths1)%nat
                     with (n + S (length paths1))%nat by lia.
Qed.

Lemma handles_opened (paths : list string) :
  forall n h, In h (handles n paths) -> exists fd path, h = os.Handle fd path.
Proof.
  induction paths as [|p paths IH]; intros n h; simpl; [done|].
  intros [<-|H]; eauto.
Qed.

(** One [Convert] of a file list opens at most one handle and closes it
    before it returns. *)
Lemma filesValue_Convert_balance (v : string) (this : filesValue) (w : os.World) :
  forall ok this' w',
    Convert v this w = (ok, this', w') ->
    exists paths,
      os.closed w' = rev (handles (os.next_fd w) paths) ++ os.closed w /\
      os.next_fd w' = (os.next_fd w + length paths)%nat.
Proof.
  intros ok this' w'. unfold Convert, filesValue_Convert, fileValue_Set.
  destruct (String.length v =? 0)%nat.
  { intros Heq; inversion Heq; subst. exists []. simpl. by rewrite Nat.add_0_r. }
  destruct (String.eqb v "stdin").
  { intros Heq; inversion Heq; subst. exists []. simpl. by rewrite Nat.add_0_r. }
  destruct (String.eqb v "stdout").
  { intros Heq; inversion Heq; subst. exists []. simpl. by rewrite Nat.add_0_r. }
  simpl. unfold os.Open, os.fresh_handle.
  destruct (os.readable w v); intros Heq; inversion Heq; subst; simpl.
  - exists [v]. simpl. split; [done|lia].
  - exists []. simpl. by rewrite Nat.add_0_r.
Qed.

Lemma filesValue_Set_range_balance (values : list string) :
  forall (this : filesValue) w ok this' w',
    Set_range values this w = (ok, this', w') ->
    exists paths,
      os.closed w' = rev (handles (os.next_fd w) paths) ++ os.closed w /\
      os.next_fd w' = (os.next_fd w + length paths)%nat.
Proof.
  induction values as [|v values IH]; intros this w ok this' w' Hrun.
  - simpl in Hrun. inversion Hrun; subst. exists []. simpl.
    by rewrite Nat.add_0_r.
  - cbn [Set_range] in Hrun.
    destruct (Convert v this w) as [[ok1 this1] w1] eqn:Ec.
    destruct (filesValue_Convert_balance _ _ _ _ _ _ Ec) as (p1 & Hc1 & Hn1).
    destruct ok1; simpl in Hrun.
    + destruct (IH _ _ _ _ _ Hrun) as (p2 & Hc2 & Hn2).
      exists (p1 ++ p2). rewrite handles_app, rev_app_distr, <- app_assoc.
      rewrite Hc2, Hc1, Hn2, Hn1, length_app. split; [done|lia].
    + inversion Hrun; subst. by exists p1.
Qed.

(** X6: [Set] on a file list keeps no handle open and closes no other
    handle: the handles closed when it returns are exactly the ones it
    opened itself (consecutive descriptors from the counter on), whether it
    succeeds or stops at a part that cannot be opened.  The standard
    streams are never among them. *)
Theorem OpenFileList_Set_no_leak (token : string) (this : filesValue)
    (w : os.World) :
  exists ok this' w' paths,
    ValueList_Set token this w = (ok, this', w') /\
    os.closed w' = rev (handles (os.next_fd w) paths) ++ os.closed w /\
    os.next_fd w' = (os.next_fd w + length paths)%nat /\
    ~ In os.Stdin (handles (os.next_fd w) paths) /\
    ~ In os.Stdout (handles (os.next_fd w) paths).
Proof.
  unfold ValueList_Set.
  destruct (Set_range (strings.Split token ",") this w) as [[ok this'] w'] eqn:E.
  destruct (filesValue_Set_range_balance _ _ _ _ _ _ E) as (paths & Hc & Hn).
  exists ok, this', w', paths. repeat split; try done.
  - intros H. by destruct (handles_opened _ _ _ H) as (fd & path & ?).
  - intros H. by destruct (handles_opened _ _ _ H) as (fd & path & ?).
Qed.

Example OpenFileList_Set_example :
  let '(ok, this', w') :=
    ValueList_Set "a.txt,stdin,a.txt,missing"
      (mkFilesValue (makeValueList "") []) sample_world in
  ok = false /\ names this' = ["a.txt"; "stdin"; "a.txt"] /\
  os.closed w' = [os.Handle 4 "a.txt"; os.Handle 3 "a.txt"] /\
  os.next_fd w' = 5%nat.
Proof. vm_compute. repeat split. Qed.



Lemma split_scan_nonempty (sep : string) (s : string) :
  forall skip cur, strings.split_scan sep skip cur s <> [].
Proof.
  induction s as [|c s IH]; intros skip cur; simpl; [done|].
  destruct skip; [|apply IH].
  match goal with |- (if ?b then _ else _) <> _ => destruct b end;
    [done|apply IH].
Qed.

Lemma stringsValue_Set_range (values : list string) :
  forall (this : stringsValue) w,
    Set_range values this w
    = (true, mkStringsValue (strings_ValueList this) (strings_ this ++ values), w).
Proof.
  induction values as [|v values IH]; intros this w; simpl.
  - rewrite app_nil_r. by destruct this.
  - rewrite IH. simpl. by rewrite <- app_assoc.
Qed.

(** X8: [Set] on a string list never fails and changes nothing but the
    list, which grows by the parts of the token; there is always at least
    one part, so the empty token adds one empty string. *)
Theorem StringList_Set_total (token : string) (this : stringsValue)
    (w : os.World) :
  ValueList_Set token this w
  = (true,
     mkStringsValue (strings_ValueList this)
                    (strings_ this ++ strings.Split token ","), w) /\
  strings.Split token "," <> [] /\
  strings.Split "" "," = [""].
Proof.
  unfold ValueList_Set. rewrite stringsValue_Set_range.
  repeat split. apply split_scan_nonempty.
Qed.

Lemma intsValue_Set_range (values : list string) :
  forall (this : intsValue) w,
  exists this',
    Set_range values this w = (forallb parses values, this', w).
Proof.
  induction values as [|v values IH]; intros this w.
  - by exists this.
  - cbn [Set_range forallb]. unfold Convert at 1, intsValue_Convert, parses at 1.
    destruct (strconv.Atoi v) as [i e]. destruct e; simpl.
    + by exists this.
    + apply IH.
Qed.

(** X9: [Set] on an integer list succeeds exactly when [Atoi] reads every
    part, and never touches the operating system; so a token with an empty
    part (the empty token, a doubled or trailing comma) fails. *)
Theorem IntList_Set_parses (token : string) (this : intsValue) (w : os.World) :
  exists this',
    ValueList_Set token this w
    = (forallb parses (strings.Split token ","), this', w) /\
    (In "" (strings.Split token ",") ->
     forallb parses (strings.Split token ",") = false).
Proof.
  unfold ValueList_Set.
  destruct (intsValue_Set_range (strings.Split token ",") this w) as [this' H].
  exists this'. split; [exact H|]. intros Hin.
  destruct (forallb parses (strings.Split token ",")) eqn:Hall; [|done].
  rewrite forallb_forall in Hall. specialize (Hall "" Hin). discriminate Hall.
Qed.

Example IntList_Set_trailing_comma :
  fst (fst (ValueList_Set "1,2," (mkIntsValue (makeValueList "") []) sample_world))
  = false /\
  fst (fst (ValueList_Set "" (mkIntsValue (makeValueList "") []) sample_world))
  = false.
Proof. split; vm_compute; reflexivity. Qed.

(* ===================================================================== *)
(** ** Joining and splitting *)
(* ===================================================================== *)

Lemma split_scan_String (sep : string) (cur : string) (c : ascii) (s : string) :
  strings.split_scan sep 0 cur (String c s)
  = if strings.HasPrefix (String c s) sep
    then cur :: strings.split_scan sep (String.length sep - 1) "" s
    else strings.split_scan sep 0 (cur ++ String c "") s.
Proof. reflexivity. Qed.

Lemma HasPrefix_byte (d c : ascii) (s : string) :
  strings.HasPrefix (String d s) (String c "") = Ascii.eqb d c.
Proof.
  change (strings.HasPrefix (String d s) (String c ""))
    with (Ascii.eqb d c && strings.HasPrefix s "").
  assert (Hp : strings.HasPrefix s "" = true) by (by destruct s).
  by rewrite Hp, andb_true_r.
Qed.

(** Up to the first separator byte, the scanner reads one field. *)
Lemma split_scan_field (c : ascii) (a rest : string) :
  strings.mem c a = false ->
  forall cur,
    strings.split_scan (String c "") 0 cur (a ++ String c rest)
    = (cur ++ a)%string :: strings.split_scan (String c "") 0 "" rest.
Proof.
  induction a as [|d a IH]; intros Ha cur.
  - change (("" ++ String c rest)%string) with (String c rest).
    rewrite split_scan_String, HasPrefix_byte, Ascii.eqb_refl, append_empty.
    reflexivity.
  - rewrite mem_String in Ha. apply orb_false_elim in Ha as [Hd Ha].
    change ((String d a ++ String c rest)%string)
      with (String d (a ++ String c rest)%string).
    rewrite split_scan_String, HasPrefix_byte, (Ascii.eqb_sym d c), Hd.
    by rewrite (IH Ha), append_String.
Qed.

Lemma Join_cons (sep a b : string) (l : list string) :
  strings.Join (a :: b :: l) sep = (a ++ sep ++ strings.Join (b :: l) sep)%string.
Proof. reflexivity. Qed.

(** Splitting what was joined gives the fields back, when none of them
    holds the separator byte and there is at least one. *)
Lemma Split_Join (c : ascii) (l : list string) :
  l <> [] ->
  Forall (fun a => strings.mem c a = false) l ->
  strings.Split (strings.Join l (String c "")) (String c "") = l.
Proof.
  intros Hne Hall. unfold strings.Split.
  induction Hall as [|a l Ha Hl IH]; [done|].
  destruct l as [|b l].
  - change (strings.Join [a] (String c "")) with a.
    by rewrite (split_scan_no_sep _ _ Ha).
  - rewrite Join_cons.
    change ((String c "" ++ strings.Join (b :: l) (String c ""))%string)
      with (String c (strings.Join (b :: l) (String c ""))).
    rewrite (split_scan_field _ _ _ Ha). rewrite IH by done. reflexivity.
Qed.

(** X10: the resolver joins the arguments with [","] and [Set] splits on
    [","]: a string list flag [#N] with at least [N] arguments, none of
    them from the [N]th on holding a comma, ends with exactly those
    arguments appended, one element each, and nothing else changed. *)
Theorem StringList_ordinal_takes_rest (args : list string) (fl : flag.Flag)
    (l : stringsValue) (suffix : string) (N : Z) (st : State) :
  flag.Val fl = flag.VStrings l ->
  flag.Name fl = String "#" suffix ->
  strconv.Atoi suffix = (N, None) -> 1 <= N ->
  N - 1 < Z.of_nat (length args) ->
  Forall (fun a => strings.mem "," a = false) (drop (Z.to_nat (N - 1)) args) ->
  Parse_visit args fl st
  = Ok (flag.mkFlag (flag.Name fl) (flag.Usage fl)
          (flag.VStrings
             (mkStringsValue (strings_ValueList l)
                (strings_ l ++ drop (Z.to_nat (N - 1)) args)))
          (flag.DefValue fl), st).
Proof.
  intros Hval Hname Hatoi HN Hlen Hcomma.
  rewrite (Parse_visit_Set_flag _ _ _ _ _ Hname Hatoi HN).
  unfold ordinal_value, Set_flag.
  destruct (Z.ltb_spec (N - 1) (Z.of_nat (length args))); [|lia].
  rewrite Hval. cbn [isListValue flag.Value_Set]. unfold ValueList_Set.
  assert (Hne : drop (Z.to_nat (N - 1)) args <> []).
  { intros Hnil. apply (f_equal length) in Hnil.
    rewrite length_drop in Hnil. simpl in Hnil. lia. }
  change "," with (String ","%char "") at 1 2.
  rewrite (Split_Join _ _ Hne Hcomma), stringsValue_Set_range.
  by destruct st.
Qed.

Lemma StringList_ordinal_takes_rest_witness :
  Parse_visit ["dev"; "alice"; "bob"]
    (flag.mkFlag "#2" "owners"
       (flag.VStrings (mkStringsValue (makeValueList "self") [])) "self")
    sample_state
  = Ok (flag.mkFlag "#2" "owners"
          (flag.VStrings (mkStringsValue (makeValueList "self") ["alice"; "bob"]))
          "self", sample_state).
Proof.
  apply (StringList_ordinal_takes_rest ["dev"; "alice"; "bob"]
           (flag.mkFlag "#2" "owners"
              (flag.VStrings (mkStringsValue (makeValueList "self") [])) "self")
           (mkStringsValue (makeValueList "self") []) "2" 2 sample_state);
    try reflexivity; try lia.
  repeat constructor.
Defined.

(** An argument that holds a comma counts as several elements. *)
Example StringList_argument_with_comma :
  Parse_visit ["a,b"; "c"]
    (flag.mkFlag "#1" "owners"
       (flag.VStrings (mkStringsValue (makeValueList "self") [])) "self")
    sample_state
  = Ok (flag.mkFlag "#1" "owners"
          (flag.VStrings (mkStringsValue (makeValueList "self") ["a"; "b"; "c"]))
          "self", sample_state).
Proof. vm_compute. reflexivity. Qed.

(* ===================================================================== *)
(** ** What a parse keeps *)
(* ===================================================================== *)

Lemma store_shape (name : string) (v : flag.Value) (flags : list flag.Flag) :
  map shape (flag.store name v flags) = map shape flags.
Proof.
  unfold flag.store. rewrite map_map. apply map_ext. intros fl.
  by destruct (String.eqb (flag.Name fl) name).
Qed.

Lemma Value_Set_heap_length (v : flag.Value) (s : string) (st : State) :
  forall ok v' st',
    flag.Value_Set v s st = Ok (ok, v', st') ->
    length (heap st') = length (heap st).
Proof.
  intros ok v' st'. destruct v; simpl; repeat case_match;
    intros Heq; inversion Heq; subst; simpl; try done.
  apply length_insert.
Qed.

Lemma parse_keeps (n : nat) :
  forall arguments flags st fs st',
    (length arguments <= n)%nat ->
    flag.parse flags arguments st = Ok (fs, st') ->
    map shape (flag.formal fs) = map shape flags /\
    length (heap st') = length (heap st).
Proof.
  induction n as [|n IH]; intros arguments flags st fs st' Hn Hp.
  - destruct arguments; [|simpl in Hn; lia].
    simpl in Hp. inversion Hp; subst. done.
  - destruct arguments as [|s rest]; [simpl in Hp; inversion Hp; subst; done|].
    simpl in Hn. cbn [flag.parse] in Hp.
    destruct (flag.classify s) as [| | |name has_value];
      try (inversion Hp; subst; done).
    destruct (flag.lookup name flags) as [fl|]; [|discriminate].
    destruct has_value as [value|].
    + destruct (flag.Value_Set (flag.Val fl) value st) as [[[ok v] st1]| |] eqn:Es;
        simpl in Hp; try discriminate.
      destruct ok; simpl in Hp; [|discriminate].
      destruct (IH rest _ _ _ _ ltac:(lia) Hp) as [H1 H2].
      rewrite H1, H2, store_shape, (Value_Set_heap_length _ _ _ _ _ _ Es). done.
    + destruct rest as [|value rest']; [discriminate|].
      destruct (flag.Value_Set (flag.Val fl) value st) as [[[ok v] st1]| |] eqn:Es;
        simpl in Hp; try discriminate.
      destruct ok; simpl in Hp; [|discriminate].
      simpl in Hn.
      destruct (IH rest' _ _ _ _ ltac:(lia) Hp) as [H1 H2].
      rewrite H1, H2, store_shape, (Value_Set_heap_length _ _ _ _ _ _ Es). done.
Qed.

Lemma Parse_visit_keeps (args : list string) (fl : flag.Flag) (st : State) :
  forall fl' st',
    Parse_visit args fl st = Ok (fl', st') ->
    shape fl' = shape fl /\ length (heap st') = length (heap st).
Proof.
  intros fl' st'. unfold Parse_visit.
  destruct (flag.Name fl) as [|c suffix] eqn:Hname; [discriminate|].
  destruct (Ascii.eqb c "#"); [|by intros Heq; inversion Heq; subst].
  destruct (strconv.Atoi suffix) as [idx [e|]]; [discriminate|].
  destruct (positional_val fl args (strconv.wrap (idx - 1))) as [val| |];
    simpl; try discriminate.
  destruct (flag.Value_Set (flag.Val fl) val st) as [[[res v] st1]| |] eqn:Es;
    simpl; try discriminate.
  destruct res; simpl; [|discriminate].
  intros Heq; inversion Heq; subst.
  split; [|exact (Value_Set_heap_length _ _ _ _ _ _ Es)].
  unfold shape. simpl. by rewrite Hname.
Qed.

Lemma visit_keeps (args : list string) (flags : list flag.Flag) :
  forall st flags' st',
    flag.visit (Parse_visit args) flags st = Ok (flags', st') ->
    map shape flags' = map shape flags /\
    length (heap st') = length (heap st).
Proof.
  induction flags as [|fl flags IH]; intros st flags' st' Hv.
  - simpl in Hv. inversion Hv; subst. done.
  - cbn [flag.visit] in Hv.
    destruct (Parse_visit args fl st) as [[fl1 st1]| |] eqn:E1;
      simpl in Hv; try discriminate.
    destruct (flag.visit (Parse_visit args) flags st1) as [[flags1 st2]| |] eqn:E2;
      simpl in Hv; try discriminate.
    inversion Hv; subst.
    destruct (Parse_visit_keeps _ _ _ _ _ E1) as [H1 H2].
    destruct (IH _ _ _ E2) as [H3 H4].
    simpl. rewrite H1, H3, H4, H2. done.
Qed.

Lemma Parse_keeps (fx : FlagExtra) (cmdline : list string) (doGlob : bool)
    (st : State) :
  forall fx' st',
    Parse fx cmdline doGlob st = Ok (fx', st') ->
    Files fx' = Files fx /\ length (heap st') = length (heap st).
Proof.
  intros fx' st'. rewrite Parse_visits.
  destruct (flag.Parse (FlagSet fx) _ st) as [[fs st1]| |] eqn:Ep;
    simpl; try discriminate.
  destruct (flag.visit _ (flag.formal fs) st1) as [[flags st2]| |] eqn:Ev;
    simpl; try discriminate.
  intros Heq; inversion Heq; subst. simpl.
  destruct (visit_keeps _ _ _ _ _ Ev) as [_ H2].
  unfold flag.Parse in Ep.
  destruct (parse_keeps _ _ _ _ _ _ (le_n _) Ep) as [_ H4].
  by rewrite H2, H4.
Qed.



Lemma named_shape (flags flags' : list flag.Flag) :
  map shape flags' = map shape flags ->
  Forall (fun fl => named fl = true) flags ->
  Forall (fun fl => named fl = true) flags'.
Proof.
  revert flags'. induction flags as [|fl flags IH]; intros [|fl' flags'] Hs Hn;
    try discriminate; [constructor|].
  inversion Hn as [|? ? Hfl Hrest]; subst.
  inversion Hs as [[Hname Husage Hdef Htail]].
  constructor; [|by apply IH].
  unfold named in *. by rewrite Hname.
Qed.

(** X12: on a registry without positional flags, [Parse] is the parse of
    the base registry: the same outcome, the same values, the same
    arguments left over. *)
Theorem Parse_named_is_base (fx : FlagExtra) (cmdline : list string)
    (doGlob : bool) (st : State) :
  Forall (fun fl => named fl = true) (flag.formal (FlagSet fx)) ->
  Parse fx cmdline doGlob st
  = ('(fs, st1) ← flag.Parse (FlagSet fx)
                    (if doGlob then glob cmdline (world st) else cmdline) st;
     Ok (mkFlagExtra fs (Files fx), st1)).
Proof.
  intros Hn. rewrite Parse_visits.
  destruct (flag.Parse (FlagSet fx) _ st) as [[fs st1]| |] eqn:Ep;
    simpl; [|done..].
  unfold flag.Parse in Ep.
  destruct (parse_keeps _ _ _ _ _ _ (le_n _) Ep) as [Hs _].
  rewrite (visit_named _ _ (named_shape _ _ Hs Hn)). simpl. by destruct fs.
Qed.

Lemma Parse_named_is_base_witness :
  Parse (fst animal_registry) ["-age=12"; "x"; "y"] false (snd animal_registry)
  = ('(fs, st1) ← flag.Parse (FlagSet (fst animal_registry))
                    ["-age=12"; "x"; "y"] (snd animal_registry);
     Ok (mkFlagExtra fs (Files (fst animal_registry)), st1)).
Proof.
  apply (Parse_named_is_base (fst animal_registry) ["-age=12"; "x"; "y"] false
           (snd animal_registry)).
  vm_compute. repeat constructor.
Defined.

(* ===================================================================== *)
(** ** Required parameters *)
(* ===================================================================== *)

(** X13: a positional flag [#N] declared with the empty default, when the
    command line has fewer than [N] arguments, is set with the empty
    string.  A file, a file list, an integer and an integer list turn it
    down, and the process ends with status 1: the parameter is required.
    A string takes it, and a string list then holds one empty string. *)
Theorem empty_default_is_required (args : list string) (fl : flag.Flag)
    (suffix : string) (N : Z) (st : State) :
  flag.Name fl = String "#" suffix ->
  strconv.Atoi suffix = (N, None) -> 1 <= N ->
  Z.of_nat (length args) < N ->
  flag.DefValue fl = "" ->
  match flag.Val fl with
  | flag.VString _ =>
      Parse_visit args fl st
      = Ok (flag.mkFlag (flag.Name fl) (flag.Usage fl) (flag.VString "") "", st)
  | flag.VStrings l =>
      Parse_visit args fl st
      = Ok (flag.mkFlag (flag.Name fl) (flag.Usage fl)
              (flag.VStrings (mkStringsValue (strings_ValueList l)
                                (strings_ l ++ [""]))) "", st)
  | flag.VFile p =>
      is_Some (heap st !! p) ->
      Parse_visit args fl st = Exit 1 (InvalidArgument "" N)
  | _ => Parse_visit args fl st = Exit 1 (InvalidArgument "" N)
  end.
Proof.
  intros Hname Hatoi HN Hlen Hdef.
  rewrite (Parse_visit_Set_flag _ _ _ _ _ Hname Hatoi HN).
  assert (Hval : ordinal_value fl args N = "").
  { unfold ordinal_value.
    destruct (Z.ltb_spec (N - 1) (Z.of_nat (length args))); [lia|done]. }
  rewrite Hval. unfold Set_flag. rewrite Hdef.
  destruct (flag.Val fl) as [s|i|p|l|l|l]; try reflexivity.
  - intros [f Hp]. simpl. by rewrite Hp.
  - destruct st as [hp w]. reflexivity.
Qed.

Lemma empty_default_is_required_witness :
  Parse_visit [] (flag.mkFlag "#1" "input file" (flag.VFile 0) "")
    (mkState [newFileValue "" true] sample_world)
  = Exit 1 (InvalidArgument "" 1).
Proof.
  apply (empty_default_is_required []
           (flag.mkFlag "#1" "input file" (flag.VFile 0) "") "1" 1
           (mkState [newFileValue "" true] sample_world));
    try reflexivity; try lia.
  eexists; reflexivity.
Defined.

Example required_input_file :
  let '(fx, st) := registered (OpenFile NewFlag "#1" "" "input file" sample_state) in
  Parse fx [] false st = Exit 1 (InvalidArgument "" 1) /\
  Parse fx ["missing.txt"] false st = Exit 1 (InvalidArgument "missing.txt" 1) /\
  bound "#1" (Parse fx ["a.txt"] false st) = Some (flag.VFile 0).
Proof. vm_compute. repeat split; reflexivity. Qed.

(* ===================================================================== *)
(** ** Every file value is tracked *)
(* ===================================================================== *)

Lemma register_keeps (fx : FlagExtra) (v : flag.Value) (name usage : string)
    (st : State) :
  forall fx' st',
    register fx v name usage st = Ok (fx', st') ->
    Files fx' = Files fx /\ st' = st.
Proof.
  intros fx' st'. unfold register, flag.Var.
  destruct (flag.Value_String v st) as [def| |]; simpl; try discriminate.
  destruct (flag.lookup name (flag.formal (FlagSet fx))); simpl; try discriminate.
  by intros Heq; inversion Heq.
Qed.

Lemma all_tracked_new (fx : FlagExtra) (st : State) (name : string) (in_ : bool) :
  all_tracked fx st ->
  all_tracked (FlagExtra_newFileValue fx name in_ st).1.2
              (FlagExtra_newFileValue fx name in_ st).2.
Proof.
  unfold all_tracked, FlagExtra_newFileValue, addFile. simpl. intros ->.
  rewrite length_app. simpl. by rewrite Nat.add_1_r, seq_S.
Qed.

Lemma all_tracked_live (fx : FlagExtra) (st : State) :
  all_tracked fx st -> Forall (fun p => is_Some (heap st !! p)) (Files fx).
Proof.
  unfold all_tracked. intros ->. apply Forall_forall. intros p Hp.
  apply in_seq in Hp. apply lookup_lt_is_Some. lia.
Qed.



Example all_tracked_start (w : os.World) : all_tracked NewFlag (mkState [] w).
Proof. reflexivity. Qed.

(* ===================================================================== *)
(** ** More on configuration files *)
(* ===================================================================== *)

Lemma config_tokens_one_line (line : string) :
  strings.Index line "#" = -1 ->
  strings.Index line LF = -1 ->
  strings.TrimSpace line = line ->
  line <> "" ->
  config_tokens line
  = [if strings.Contains line "=" then ("-" ++ line)%string else line].
Proof.
  intros Hhash Hlf Htrim Hne.
  apply Index_byte_absent in Hlf.
  rewrite config_tokens_lines, (ReplaceAll_no_newline _ Hlf),
    (Split_no_newline _ Hlf).
  simpl. by rewrite app_nil_r, (line_token_clean _ Hhash Htrim Hne).
Qed.

Lemma Parse_glob (fx : FlagExtra) (cmdline : list string) (st : State) :
  Parse fx cmdline true st = Parse fx (glob cmdline (world st)) false st.
Proof. reflexivity. Qed.



(** The line [files=*.go] binds nothing, although two files match
    [*.go]; on the command line, [-files=a.go,b.go] binds both. *)
Example ParseConfig_wildcard_dropped :
  config_tokens "files=*.go" = ["-files=*.go"] /\
  glob ["-files=*.go"] wildcard_world = [] /\
  bound "files" (ParseConfig (fst files_registry) "files.conf" (snd files_registry))
  = Some (flag.VFiles (mkFilesValue (makeValueList "") [])) /\
  bound "files" (Parse (fst files_registry) ["-files=a.go,b.go"] false
                   (snd files_registry))
  = Some (flag.VFiles (mkFilesValue (makeValueList "") ["a.go"; "b.go"])).
Proof. repeat split; vm_compute; reflexivity. Qed.

Lemma mem_append (c : ascii) (a b : string) :
  strings.mem c (a ++ b) = strings.mem c a || strings.mem c b.
Proof.
  induction a as [|d a IH]; [done|].
  change ((String d a ++ b)%string) with (String d (a ++ b)%string).
  by rewrite !mem_String, IH, orb_assoc.
Qed.

Lemma mem_trim_left (c : ascii) (s : string) :
  strings.mem c s = false -> strings.mem c (strings.trim_left s) = false.
Proof.
  induction s as [|d s IH]; [done|].
  intros H. cbn [strings.trim_left]. destruct (strings.isSpace d); [|exact H].
  rewrite mem_String in H. apply orb_false_elim in H as [_ H]. by apply IH.
Qed.

Lemma mem_trim_right (c : ascii) (s : string) :
  strings.mem c s = false -> strings.mem c (strings.trim_right s) = false.
Proof.
  induction s as [|d s IH]; [done|].
  rewrite mem_String. intros H. apply orb_false_elim in H as [Hd H].
  specialize (IH H). cbn [strings.trim_right].
  destruct (strings.trim_right s) as [|e t].
  - destruct (strings.isSpace d); [done|].
    by rewrite mem_String, Hd.
  - by rewrite mem_String, Hd, IH.
Qed.

Lemma mem_TrimSpace (c : ascii) (s : string) :
  strings.mem c s = false -> strings.mem c (strings.TrimSpace s) = false.
Proof. intros H. by apply mem_trim_right, mem_trim_left. Qed.

Lemma strip_comment_no_hash (line : string) :
  strings.mem "#" (strip_comment line) = false.
Proof.
  induction line as [|c line IH]; [done|].
  change (strip_comment (String c line))
    with (if Ascii.eqb c "#" then "" else String c (strip_comment line)).
  destruct (Ascii.eqb c "#") eqn:Ec; [done|].
  by rewrite mem_String, (Ascii.eqb_sym "#" c), Ec, IH.
Qed.

Lemma mem_strip_comment (c : ascii) (line : string) :
  strings.mem c line = false -> strings.mem c (strip_comment line) = false.
Proof.
  induction line as [|d line IH]; [done|].
  rewrite mem_String. intros H. apply orb_false_elim in H as [Hd H].
  change (strip_comment (String d line))
    with (if Ascii.eqb d "#" then "" else String d (strip_comment line)).
  destruct (Ascii.eqb d "#"); [done|].
  by rewrite mem_String, Hd, (IH H).
Qed.

(** No field of a split holds the separator byte. *)
Lemma split_scan_fields (c : ascii) (s : string) :
  forall cur,
    strings.mem c cur = false ->
    Forall (fun f => strings.mem c f = false)
           (strings.split_scan (String c "") 0 cur s).
Proof.
  induction s as [|d s IH]; intros cur Hcur.
  - by constructor.
  - rewrite split_scan_String, HasPrefix_byte.
    destruct (Ascii.eqb d c) eqn:Ed.
    + constructor; [exact Hcur|]. by apply IH.
    + apply IH. by rewrite mem_append, Hcur, mem_String, (Ascii.eqb_sym c d), Ed.
Qed.

(** X16: what a configuration file can put on the command line.  Every
    token is non-empty and holds neither ['#'] nor a line feed; a token
    that holds ['='] is a line with a hyphen put before it, so it is read
    as a flag. *)
Theorem config_tokens_shape (bytes tok : string) :
  In tok (config_tokens bytes) ->
  tok <> "" /\
  strings.mem "#" tok = false /\
  strings.mem "010" tok = false /\
  (strings.Contains tok "=" = true ->
   exists l, tok = ("-" ++ l)%string /\ l <> "" /\ strings.Contains l "=" = true).
Proof.
  rewrite config_tokens_lines. intros Hin.
  apply in_flat_map in Hin as (line & Hline & Htok).
  assert (Hlf : strings.mem "010" line = false).
  { pose proof (split_scan_fields "010" (strings.ReplaceAll bytes CRLF LF) ""
                  eq_refl) as Hall.
    rewrite Forall_forall in Hall. exact (Hall _ Hline). }
  unfold line_token in Htok.
  pose proof (mem_TrimSpace _ _ (strip_comment_no_hash line)) as Hh.
  pose proof (mem_TrimSpace _ _ (mem_strip_comment _ _ Hlf)) as Hl.
  destruct (String.eqb_spec (strings.TrimSpace (strip_comment line)) "")
    as [|Hne]; [done|].
  destruct Htok as [<-|[]].
  destruct (strings.Contains (strings.TrimSpace (strip_comment line)) "=") eqn:Ec.
  - repeat split; [done|exact Hh|exact Hl|]. intros _.
    by exists (strings.TrimSpace (strip_comment line)).
  - repeat split; [exact Hne|exact Hh|exact Hl|]. intros H.
    rewrite Ec in H. discriminate H.
Qed.

Lemma config_tokens_shape_witness :
  "-age=12" <> "" /\ strings.mem "#" "-age=12" = false.
Proof.
  pose proof (config_tokens_shape "age=12  # age of animal" "-age=12"
                (or_introl eq_refl)) as H.
  exact (conj (proj1 H) (proj1 (proj2 H))).
Defined.

Lemma replace_scan_String (old new : string) (c : ascii) (s : string) :
  strings.replace_scan old new 0 (String c s)
  = if strings.HasPrefix (String c s) old
    then (new ++ strings.replace_scan old new (String.length old - 1) s)%string
    else String c (strings.replace_scan old new 0 s).
Proof. reflexivity. Qed.

Lemma HasPrefix_CRLF_String (c d : ascii) (s : string) :
  strings.HasPrefix (String c (String d s)) CRLF
  = Ascii.eqb c "013" && Ascii.eqb d "010".
Proof.
  change (strings.HasPrefix (String c (String d s)) CRLF)
    with (Ascii.eqb c "013" && (Ascii.eqb d "010" && strings.HasPrefix s "")).
  assert (Hp : strings.HasPrefix s "" = true) by (by destruct s).
  by rewrite Hp, andb_true_r.
Qed.

Lemma one_line_spec (l : string) :
  one_line l = true ->
  strings.mem "010" l = false /\ strings.mem "013" l = false.
Proof.
  unfold one_line. intros H. apply andb_prop in H as [H1 H2].
  by apply negb_true_iff in H1, H2.
Qed.

(** A line followed by a carriage return and a line feed comes out
    followed by a line feed. *)
Lemma replace_scan_line (a rest : string) :
  strings.mem "010" a = false ->
  strings.replace_scan CRLF LF 0 (a ++ CRLF ++ rest)
  = (a ++ LF ++ strings.replace_scan CRLF LF 0 rest)%string.
Proof.
  induction a as [|d a IH]; intros Ha.
  - change (("" ++ CRLF ++ rest)%string) with (String "013" (String "010" rest)).
    rewrite replace_scan_String, HasPrefix_CRLF_String. reflexivity.
  - rewrite mem_String in Ha. apply orb_false_elim in Ha as [Hd Ha].
    change ((String d a ++ CRLF ++ rest)%string)
      with (String d (a ++ CRLF ++ rest)%string).
    rewrite replace_scan_String.
    assert (Hp : strings.HasPrefix (String d (a ++ CRLF ++ rest)) CRLF = false).
    { destruct a as [|e a].
      - change (("" ++ CRLF ++ rest)%string)
          with (String "013" (String "010" rest)).
        rewrite HasPrefix_CRLF_String. apply andb_false_r.
      - change ((String e a ++ CRLF ++ rest)%string)
          with (String e (a ++ CRLF ++ rest)%string).
        rewrite HasPrefix_CRLF_String.
        rewrite mem_String in Ha. apply orb_false_elim in Ha as [He _].
        rewrite (Ascii.eqb_sym e "010"), He. apply andb_false_r. }
    rewrite Hp, (IH Ha). reflexivity.
Qed.

Lemma ReplaceAll_Join_CRLF (lines : list string) :
  Forall (fun l => strings.mem "010" l = false) lines ->
  strings.ReplaceAll (strings.Join lines CRLF) CRLF LF = strings.Join lines LF.
Proof.
  unfold strings.ReplaceAll.
  induction 1 as [|a lines Ha _ IH]; [done|].
  destruct lines as [|b lines].
  - exact (ReplaceAll_no_newline _ Ha).
  - by rewrite !Join_cons, (replace_scan_line _ _ Ha), IH.
Qed.

Lemma ReplaceAll_no_return (s : string) :
  strings.mem "013" s = false -> strings.ReplaceAll s CRLF LF = s.
Proof.
  unfold strings.ReplaceAll.
  induction s as [|c s IH]; [done|].
  rewrite mem_String. intros H. apply orb_false_elim in H as [Hc Hs].
  rewrite replace_scan_String.
  assert (Hp : strings.HasPrefix (String c s) CRLF = false).
  { destruct s as [|d s]; [apply andb_false_r|].
    by rewrite HasPrefix_CRLF_String, (Ascii.eqb_sym c "013"), Hc. }
  by rewrite Hp, (IH Hs).
Qed.

Lemma mem_Join_LF (lines : list string) :
  Forall (fun l => strings.mem "013" l = false) lines ->
  strings.mem "013" (strings.Join lines LF) = false.
Proof.
  induction 1 as [|a lines Ha _ IH]; [done|].
  destruct lines as [|b lines]; [exact Ha|].
  by rewrite Join_cons, !mem_append, Ha, IH.
Qed.

(** X17: a configuration file gives the same tokens whether its lines
    are separated by a line feed or by a carriage return and a line feed:
    in both cases the tokens of its lines, in order. *)
Theorem config_tokens_line_ends (lines : list string) :
  Forall (fun l => one_line l = true) lines ->
  config_tokens (strings.Join lines CRLF) = flat_map line_token lines /\
  config_tokens (strings.Join lines LF) = flat_map line_token lines.
Proof.
  intros Hall.
  assert (Hlf : Forall (fun l => strings.mem "010" l = false) lines).
  { eapply Forall_impl; [|exact Hall]. intros l Hl. exact (proj1 (one_line_spec _ Hl)). }
  assert (Hcr : Forall (fun l => strings.mem "013" l = false) lines).
  { eapply Forall_impl; [|exact Hall]. intros l Hl. exact (proj2 (one_line_spec _ Hl)). }
  destruct lines as [|a lines]; [split; reflexivity|].
  rewrite !config_tokens_lines.
  rewrite (ReplaceAll_Join_CRLF _ Hlf), (ReplaceAll_no_return _ (mem_Join_LF _ Hcr)).
  assert (Hne : a :: lines <> []) by done.
  unfold LF. by rewrite (Split_Join _ _ Hne Hlf).
Qed.

Lemma config_tokens_line_ends_witness :
  config_tokens (strings.Join ["name=bonzo dog"; "age=12  # age of animal"; ""] CRLF)
  = flat_map line_token ["name=bonzo dog"; "age=12  # age of animal"; ""] /\
  config_tokens (strings.Join ["name=bonzo dog"; "age=12  # age of animal"; ""] LF)
  = flat_map line_token ["name=bonzo dog"; "age=12  # age of animal"; ""].
Proof.
  apply (config_tokens_line_ends
           ["name=bonzo dog"; "age=12  # age of animal"; ""]).
  repeat constructor.
Defined.

(** A carriage return that is not followed by a line feed ends no line;
    inside a value it stays there. *)
Example config_tokens_lone_return :
  config_tokens ("name=a" ++ String "013" "b") = [("-name=a" ++ String "013" "b")%string].
Proof. vm_compute. reflexivity. Qed.

(* ===================================================================== *)
(** ** Registration *)
(* ===================================================================== *)

Lemma lookup_snoc (name : string) (flags : list flag.Flag) (fl : flag.Flag) :
  flag.lookup name flags = None ->
  flag.Name fl = name ->
  flag.lookup name (flags ++ [fl]) = Some fl.
Proof.
  unfold flag.lookup. intros Hnone Hname.
  induction flags as [|fl0 flags IH]; simpl in *.
  - by rewrite Hname, String.eqb_refl.
  - destruct (String.eqb (flag.Name fl0) name); [discriminate|]. by apply IH.
Qed.

Lemma register_new (fx : FlagExtra) (v : flag.Value) (name usage def : string)
    (st : State) :
  flag.lookup name (flag.formal (FlagSet fx)) = None ->
  flag.Value_String v st = Ok def ->
  register fx v name usage st
  = Ok (mkFlagExtra
          (flag.mkFlagSet (flag.formal (FlagSet fx) ++ [flag.mkFlag name usage v def])
                          (flag.args (FlagSet fx)))
          (Files fx), st).
Proof.
  intros Hnone Hdef. unfold register, flag.Var. rewrite Hdef. simpl.
  by rewrite Hnone.
Qed.

Lemma newFileValue_String (fx : FlagExtra) (def : string) (in_ : bool) (st : State) :
  flag.Value_String (flag.VFile (length (heap st)))
    (FlagExtra_newFileValue fx def in_ st).2
  = Ok def.
Proof.
  unfold FlagExtra_newFileValue. cbn [snd heap flag.Value_String].
  by rewrite (list_lookup_middle (heap st) [] (newFileValue def in_) _ eq_refl).
Qed.

(** X18: under a name not yet taken, every registration of this package
    adds one flag, found again under that name, whose declared default
    (what [String] returns on the new value: the [name] field of the file
    value or of the list) is the [def] it was given; that is the text the
    resolver falls back on.  A file flag points to a new file value that
    holds no handle. *)
Theorem registration_records_default (fx : FlagExtra) (name def usage : string)
    (st : State) :
  flag.lookup name (flag.formal (FlagSet fx)) = None ->
  declared name (OpenFile fx name def usage st)
  = Some (flag.mkFlag name usage (flag.VFile (length (heap st))) def) /\
  declared name (CreateFile fx name def usage st)
  = Some (flag.mkFlag name usage (flag.VFile (length (heap st))) def) /\
  declared name (OpenFileList fx name def usage st)
  = Some (flag.mkFlag name usage
            (flag.VFiles (mkFilesValue (makeValueList def) [])) def) /\
  declared name (IntList fx name def usage st)
  = Some (flag.mkFlag name usage
            (flag.VInts (mkIntsValue (makeValueList def) [])) def) /\
  declared name (StringList fx name def usage st)
  = Some (flag.mkFlag name usage
            (flag.VStrings (mkStringsValue (makeValueList def) [])) def) /\
  (forall in_,
     (FlagExtra_newFileValue fx def in_ st).2.(heap) !! length (heap st)
     = Some (mkFileValue None def in_ true)).
Proof.
  intros Hnone.
  assert (Hfile : forall in_,
             declared name
               (register (FlagExtra_newFileValue fx def in_ st).1.2
                  (flag.VFile (length (heap st))) name usage
                  (FlagExtra_newFileValue fx def in_ st).2)
             = Some (flag.mkFlag name usage (flag.VFile (length (heap st))) def)).
  { intros in_.
    rewrite (register_new _ _ _ _ def); [|exact Hnone|apply newFileValue_String].
    simpl. by apply lookup_snoc. }
  assert (Hlist : forall v,
             flag.Value_String v st = Ok def ->
             declared name (register fx v name usage st)
             = Some (flag.mkFlag name usage v def)).
  { intros v Hv. rewrite (register_new _ _ _ _ def _ Hnone Hv).
    simpl. by apply lookup_snoc. }
  split; [exact (Hfile true)|]. split; [exact (Hfile false)|].
  split; [by apply Hlist|]. split; [by apply Hlist|]. split; [by apply Hlist|].
  intros in_. unfold FlagExtra_newFileValue. cbn [snd heap].
  by rewrite (list_lookup_middle (heap st) [] (newFileValue def in_) _ eq_refl).
Qed.

Lemma registration_records_default_witness :
  declared "i" (OpenFile NewFlag "i" "stdin" "input file" sample_state)
  = Some (flag.mkFlag "i" "input file" (flag.VFile 0) "stdin").
Proof.
  apply (registration_records_default NewFlag "i" "stdin" "input file" sample_state).
  reflexivity.
Defined.

Lemma parse_no_flag_ahead (flags : list flag.Flag) (cmdline : list string)
    (st : State) :
  no_flag_ahead cmdline = true ->
  flag.parse flags cmdline st = Ok (flag.mkFlagSet flags cmdline, st).
Proof.
  destruct cmdline as [|a rest]; [done|].
  unfold no_flag_ahead. cbn [flag.parse].
  by destruct (flag.classify a).
Qed.

Lemma file_flag_registered (fx : FlagExtra) (name def usage : string)
    (in_ : bool) (st : State) (fx1 : FlagExtra) (st1 : State) :
  register (FlagExtra_newFileValue fx def in_ st).1.2
    (flag.VFile (length (heap st))) name usage
    (FlagExtra_newFileValue fx def in_ st).2 = Ok (fx1, st1) ->
  flag.lookup name (flag.formal (FlagSet fx1))
  = Some (flag.mkFlag name usage (flag.VFile (length (heap st))) def) /\
  heap st1 = heap st ++ [newFileValue def in_].
Proof.
  intros Hreg.
  destruct (flag.lookup name (flag.formal (FlagSet fx))) as [fl|] eqn:El.
  - unfold register, flag.Var in Hreg. rewrite newFileValue_String in Hreg.
    simpl in Hreg. rewrite El in Hreg. discriminate Hreg.
  - rewrite (register_new _ _ _ _ def) in Hreg;
      [|exact El|apply newFileValue_String].
    inversion Hreg; subst. simpl. split; [|done]. by apply lookup_snoc.
Qed.

(** X19: the declared default of a named flag is never applied.  On a
    registry of named flags, a command line that starts with no flag
    leaves every value and the memory as they were and all its tokens as
    arguments; so the file value of a flag just declared by [OpenFile] or
    [CreateFile], with whatever default, still holds no handle after the
    parse. *)
Theorem named_default_not_applied (fx : FlagExtra) (name def usage : string)
    (cmdline : list string) (st : State) (fx1 : FlagExtra) (st1 : State) :
  OpenFile fx name def usage st = Ok (fx1, st1) \/
  CreateFile fx name def usage st = Ok (fx1, st1) ->
  Forall (fun fl => named fl = true) (flag.formal (FlagSet fx1)) ->
  no_flag_ahead cmdline = true ->
  Parse fx1 cmdline false st1
  = Ok (mkFlagExtra (flag.mkFlagSet (flag.formal (FlagSet fx1)) cmdline)
                    (Files fx1), st1) /\
  flag.lookup name (flag.formal (FlagSet fx1))
  = Some (flag.mkFlag name usage (flag.VFile (length (heap st))) def) /\
  exists f,
    heap st1 !! length (heap st) = Some f /\
    fv_f f = None /\ fileValue_String f = def.
Proof.
  intros Hreg Hnamed Hcmd.
  assert (Hnew : exists in_,
             flag.lookup name (flag.formal (FlagSet fx1))
             = Some (flag.mkFlag name usage (flag.VFile (length (heap st))) def) /\
             heap st1 = heap st ++ [newFileValue def in_]).
  { destruct Hreg as [Hreg|Hreg].
    - exists true. exact (file_flag_registered _ _ _ _ _ _ _ _ Hreg).
    - exists false. exact (file_flag_registered _ _ _ _ _ _ _ _ Hreg). }
  destruct Hnew as (in_ & Hlook & Hheap).
  split; [|split; [exact Hlook|]].
  - rewrite Parse_visits. unfold flag.Parse.
    rewrite (parse_no_flag_ahead _ _ _ Hcmd). simpl.
    by rewrite (visit_named _ _ Hnamed).
  - exists (newFileValue def in_). split; [|done].
    by rewrite Hheap, (list_lookup_middle (heap st) [] _ _ eq_refl).
Qed.

Lemma named_default_not_applied_witness :
  Parse (fst input_registry) ["x"; "-i"; "a.txt"] false (snd input_registry)
  = Ok (mkFlagExtra
          (flag.mkFlagSet (flag.formal (FlagSet (fst input_registry)))
                          ["x"; "-i"; "a.txt"])
          (Files (fst input_registry)), snd input_registry).
Proof.
  apply (named_default_not_applied NewFlag "i" "stdin" "input file"
           ["x"; "-i"; "a.txt"] sample_state
           (fst input_registry) (snd input_registry)).
  - left. reflexivity.
  - vm_compute. repeat constructor.
  - reflexivity.
Defined.

(** After [flag.OpenFile("i", "stdin", "input file")] and a parse of the
    empty command line the handle is nil; under the name [#1] the same
    declaration binds the standard input. *)
Example named_stdin_unbound :
  (let '(fx, st) := input_registry in
   option_map (fun st' => map fv_f (heap st'))
     (match Parse fx [] false st with Ok (_, st') => Some st' | _ => None end))
  = Some [None] /\
  (let '(fx, st) := registered (OpenFile NewFlag "#1" "stdin" "input file"
                                 sample_state) in
   option_map (fun st' => map fv_f (heap st'))
     (match Parse fx [] false st with Ok (_, st') => Some st' | _ => None end))
  = Some [Some os.Stdin].
Proof. split; vm_compute; reflexivity. Qed.

(* ===================================================================== *)
(** ** Exit statuses *)
(* ===================================================================== *)

Lemma Value_Set_no_exit (v : flag.Value) (s : string) (st : State) :
  forall code d, flag.Value_Set v s st <> Exit code d.
Proof.
  intros code d. destruct v; simpl; repeat case_match; discriminate.
Qed.

Lemma parse_exit (n : nat) :
  forall arguments flags st code d,
    (length arguments <= n)%nat ->
    flag.parse flags arguments st = Exit code d ->
    code = 2 /\
    match d with
    | BadFlagSyntax _ | FlagNotDefined _ | FlagNeedsArgument _
    | InvalidFlagValue _ _ => True
    | _ => False
    end.
Proof.
  induction n as [|n IH]; intros arguments flags st code d Hn Hp.
  - destruct arguments; [discriminate Hp|simpl in Hn; lia].
  - destruct arguments as [|s rest]; [discriminate Hp|].
    simpl in Hn. cbn [flag.parse] in Hp.
    destruct (flag.classify s) as [| | |name has_value]; try discriminate Hp.
    { by inversion Hp. }
    destruct (flag.lookup name flags) as [fl|]; [|by inversion Hp].
    destruct has_value as [value|].
    + destruct (flag.Value_Set (flag.Val fl) value st) as [[[ok v] st1]| |] eqn:Es;
        simpl in Hp; try discriminate Hp.
      * destruct ok; simpl in Hp; [|by inversion Hp].
        apply (IH rest _ _ _ _ ltac:(lia) Hp).
      * by destruct (Value_Set_no_exit _ _ _ _ _ Es).
    + destruct rest as [|value rest']; [by inversion Hp|].
      destruct (flag.Value_Set (flag.Val fl) value st) as [[[ok v] st1]| |] eqn:Es;
        simpl in Hp; try discriminate Hp.
      * destruct ok; simpl in Hp; [|by inversion Hp].
        simpl in Hn. apply (IH rest' _ _ _ _ ltac:(lia) Hp).
      * by destruct (Value_Set_no_exit _ _ _ _ _ Es).
Qed.

Lemma positional_val_no_exit (fl : flag.Flag) (args : list string) (idx : Z) :
  forall code d, positional_val fl args idx <> Exit code d.
Proof.
  intros code d. unfold positional_val, slice_from, index_at.
  repeat case_match; simpl; discriminate.
Qed.

Lemma Parse_visit_exit (args : list string) (fl : flag.Flag) (st : State) :
  forall code d,
    Parse_visit args fl st = Exit code d ->
    code = 1 /\
    match d with
    | BadFlagIndex _ | InvalidArgument _ _ => True
    | _ => False
    end.
Proof.
  intros code d. unfold Parse_visit.
  destruct (flag.Name fl) as [|c suffix]; [discriminate|].
  destruct (Ascii.eqb c "#"); [|discriminate].
  destruct (strconv.Atoi suffix) as [idx [e|]]; [by intros H; inversion H|].
  destruct (positional_val fl args (strconv.wrap (idx - 1))) as [val| |] eqn:Ev;
    simpl; try discriminate.
  - destruct (flag.Value_Set (flag.Val fl) val st) as [[[res v] st1]| |] eqn:Es;
      simpl; try discriminate.
    + destruct res; simpl; [discriminate|]. by intros H; inversion H.
    + by destruct (Value_Set_no_exit _ _ _ _ _ Es).
  - by destruct (positional_val_no_exit _ _ _ _ _ Ev).
Qed.

Lemma visit_exit (args : list string) (flags : list flag.Flag) :
  forall st code d,
    flag.visit (Parse_visit args) flags st = Exit code d ->
    code = 1 /\
    match d with
    | BadFlagIndex _ | InvalidArgument _ _ => True
    | _ => False
    end.
Proof.
  induction flags as [|fl flags IH]; intros st code d Hv; [discriminate Hv|].
  cbn [flag.visit] in Hv.
  destruct (Parse_visit args fl st) as [[fl1 st1]| |] eqn:E1; simpl in Hv;
    try discriminate Hv.
  - destruct (flag.visit (Parse_visit args) flags st1) as [[flags1 st2]| |] eqn:E2;
      simpl in Hv; try discriminate Hv.
    inversion Hv; subst. exact (IH _ _ _ E2).
  - inversion Hv; subst. exact (Parse_visit_exit _ _ _ _ _ E1).
Qed.

Lemma Parse_exit (fx : FlagExtra) (cmdline : list string) (doGlob : bool)
    (st : State) :
  forall code d,
    Parse fx cmdline doGlob st = Exit code d ->
    match d with
    | BadFlagIndex _ | InvalidArgument _ _ => code = 1
    | CannotOpenConfig _ => False
    | _ => code = 2
    end.
Proof.
  intros code d. rewrite Parse_visits.
  destruct (flag.Parse (FlagSet fx) _ st) as [[fs st1]| |] eqn:Ep; simpl;
    try discriminate.
  - destruct (flag.visit _ (flag.formal fs) st1) as [[flags st2]| |] eqn:Ev;
      simpl; try discriminate.
    intros H; inversion H; subst.
    destruct (visit_exit _ _ _ _ _ Ev) as [-> Hd]. by destruct d.
  - intros H; inversion H; subst. unfold flag.Parse in Ep.
    destruct (parse_exit _ _ _ _ _ _ (le_n _) Ep) as [-> Hd]. by destruct d.
Qed.

(** X20: how a run can end the process.  The diagnostics of this
    package (a bad index after ['#'], a value turned down by a positional
    flag, a configuration file that cannot be read) come with status 1,
    those of the base parse with status 2; only [ParseConfig] reports a
    configuration file, and only the one it was given, before any flag is
    touched. *)
Theorem exit_statuses (fx : FlagExtra) (cmdline : list string) (doGlob : bool)
    (filename : string) (st : State) (code : Z) (d : Diag) :
  Parse fx cmdline doGlob st = Exit code d \/
  ParseConfig fx filename st = Exit code d ->
  match d with
  | BadFlagIndex _ | InvalidArgument _ _ => code = 1
  | CannotOpenConfig f =>
      code = 1 /\ f = filename /\ ioutil.ReadFile filename (world st) = None /\
      Parse fx cmdline doGlob st <> Exit code d
  | _ => code = 2
  end.
Proof.
  intros [Hp|Hc].
  - pose proof (Parse_exit _ _ _ _ _ _ Hp) as H. by destruct d.
  - unfold ParseConfig in Hc.
    destruct (ioutil.ReadFile filename (world st)) eqn:Er.
    + pose proof (Parse_exit _ _ _ _ _ _ Hc) as H. by destruct d.
    + inversion Hc; subst. repeat split.
      intros Hp. exact (Parse_exit _ _ _ _ _ _ Hp).
Qed.

Lemma exit_statuses_witness :
  1 = 1 /\ "missing.conf" = "missing.conf" /\
  ioutil.ReadFile "missing.conf" (world (snd animal_registry)) = None /\
  Parse (fst animal_registry) [] false (snd animal_registry)
  <> Exit 1 (CannotOpenConfig "missing.conf").
Proof.
  exact (exit_statuses (fst animal_registry) [] false "missing.conf"
           (snd animal_registry) 1 (CannotOpenConfig "missing.conf")
           (or_intror eq_refl)).
Defined.

Example exit_status_examples :
  Parse (fst animal_registry) ["-colour=red"] false (snd animal_registry)
  = Exit 2 (FlagNotDefined "colour") /\
  Parse (fst animal_registry) ["-age=old"] false (snd animal_registry)
  = Exit 2 (InvalidFlagValue "old" "age") /\
  ParseConfig (fst animal_registry) "missing.conf" (snd animal_registry)
  = Exit 1 (CannotOpenConfig "missing.conf") /\
  Parse_visit ["x"] ints_flag sample_state = Exit 1 (InvalidArgument "x" 1) /\
  Parse_visit [] (flag.mkFlag "#one" "" (flag.VString "") "") sample_state
  = Exit 1 (BadFlagIndex "one").
Proof. repeat split; vm_compute; reflexivity. Qed.

(* ===================================================================== *)
(** ** A value set twice *)
(* ===================================================================== *)

(** X21: [Set] never closes the handle a value already holds.  When a
    file value is set with two paths in a row, both opened or created, the
    second handle replaces the first one; the teardown of the value closes
    the second handle only, and the first stays open. *)
Theorem fileValue_Set_twice (name1 name2 : string) (this : fileValue)
    (w : os.World) (this1 this2 : fileValue) (w1 w2 : os.World) :
  name1 <> "stdin" -> name1 <> "stdout" ->
  name2 <> "stdin" -> name2 <> "stdout" ->
  fileValue_Set name1 this w = (true, this1, w1) ->
  fileValue_Set name2 this1 w1 = (true, this2, w2) ->
  fv_f this1 = Some (os.Handle (os.next_fd w) name1) /\
  fv_f this2 = Some (os.Handle (S (os.next_fd w)) name2) /\
  os.closed w2 = os.closed w /\
  os.closed (fileValue_Close this2 w2)
  = os.Handle (S (os.next_fd w)) name2 :: os.closed w.
Proof.
  intros H1i H1o H2i H2o. unfold fileValue_Set.
  destruct (String.length name1 =? 0)%nat; [discriminate|].
  destruct (String.eqb_spec name1 "stdin") as [|_]; [done|].
  destruct (String.eqb_spec name1 "stdout") as [|_]; [done|].
  destruct (String.length name2 =? 0)%nat; [discriminate|].
  destruct (String.eqb_spec name2 "stdin") as [|_]; [done|].
  destruct (String.eqb_spec name2 "stdout") as [|_]; [done|].
  cbn [fv_in fv_f fv_name fv_std]. unfold os.Open, os.Create, os.fresh_handle.
  intros Hs1 Hs2.
  destruct (fv_in this);
    [destruct (os.readable w name1) | destruct (os.creatable w name1)];
    inversion Hs1; subst; clear Hs1; cbn in Hs2;
    match type of Hs2 with
    | context [if ?b then _ else _] => destruct b
    end; inversion Hs2; subst; done.
Qed.

Lemma fileValue_Set_twice_witness :
  fv_f (mkFileValue (Some (os.Handle 3 "a.txt")) "a.txt" true false)
  = Some (os.Handle (os.next_fd sample_world) "a.txt").
Proof.
  exact (proj1 (fileValue_Set_twice "a.txt" "a.txt" (newFileValue "" true)
                  sample_world
                  (mkFileValue (Some (os.Handle 3 "a.txt")) "a.txt" true false)
                  (mkFileValue (Some (os.Handle 4 "a.txt")) "a.txt" true false)
                  (os.mkWorld (os.readable sample_world) (os.creatable sample_world)
                     (os.matches sample_world) (os.contents sample_world) 4 [])
                  (os.mkWorld (os.readable sample_world) (os.creatable sample_world)
                     (os.matches sample_world) (os.contents sample_world) 5 [])
                  ltac:(discriminate) ltac:(discriminate)
                  ltac:(discriminate) ltac:(discriminate)
                  eq_refl eq_refl)).
Defined.
